(** * simple-qiniu-upload: a shallow embedding of [src/index.js]

    The development follows the class [Uploader]: the key mapping
    ([resolveBase], and the first line of [_createUploadTask]), the worker
    pool of [start], the paginated listing of [fetchUploadedFiles] / [_fetch]
    and the batched deletion of [deleteFiles].

    JavaScript runs every callback to completion on a single thread, so the
    asynchronous parts are modelled as transition systems whose events are the
    callbacks the event loop may run next; the answers of the remote service
    are the environment of the model. *)

From Stdlib Require Import ZArith String Ascii List Lia DecimalString Permutation.
From stdpp Require Import base list strings gmap.

Open Scope string_scope.
Open Scope list_scope.

(** ** The fragments of JavaScript the source relies on *)

Module JS.

(** [!s] for a string: only the empty string is falsy. *)
Definition truthy (s : string) : bool := negb (String.eqb s "").

(** [!v] for a value that may be [undefined]. *)
Definition truthy_opt (o : option string) : bool :=
  match o with
  | Some s => truthy s
  | None => false
  end.

(** [s.substring(n)] *)
Fixpoint substringFrom (n : nat) (s : string) : string :=
  match n, s with
  | O, _ => s
  | S n', String _ s' => substringFrom n' s'
  | S _, EmptyString => EmptyString
  end.

(** Whether [s] starts with [pattern]. *)
Fixpoint startsWith (pattern s : string) : bool :=
  match pattern with
  | EmptyString => true
  | String a pattern' =>
      match s with
      | EmptyString => false
      | String b s' => Ascii.eqb a b && startsWith pattern' s'
      end
  end.

(** [s.replace(pattern, replacement)] with a string pattern: only the first
    (leftmost) occurrence is replaced; without an occurrence [s] is
    returned as it is. The source only ever passes [''] as replacement, so
    the dollar patterns of the replacement text play no role. *)
Fixpoint replace (pattern replacement s : string) : string :=
  if startsWith pattern s
  then replacement +:+ substringFrom (String.length pattern) s
  else match s with
       | EmptyString => EmptyString
       | String c s' => String c (replace pattern replacement s')
       end.

(** [s.replace(/\\/g, '/')]: every backslash becomes a slash. *)
Fixpoint backslashes_to_slashes (s : string) : string :=
  match s with
  | EmptyString => EmptyString
  | String c s' =>
      String (if Ascii.eqb c "\"%char then "/"%char else c)
             (backslashes_to_slashes s')
  end.

(** Whether [pattern] occurs somewhere in [s] ([s.indexOf(pattern) >= 0]). *)
Fixpoint occurs (pattern s : string) : bool :=
  startsWith pattern s ||
  match s with
  | EmptyString => false
  | String _ s' => occurs pattern s'
  end.

(** An integer inside a template literal: its decimal notation. *)
Definition show (z : Z) : string := NilZero.string_of_int (Z.to_int z).

(** [array.pop()]: removes and returns the last element; [undefined] (and
    no change) on an empty array. *)
Fixpoint pop {A} (l : list A) : option A * list A :=
  match l with
  | [] => (None, [])
  | [x] => (Some x, [])
  | x :: l' => let '(r, rest) := pop l' in (r, x :: rest)
  end.

(** What [JSON.stringify] is given, as a tree; the text layout (the tab
    indentation) is not modelled. *)
#[local] Set Warnings "-register-all".
Inductive JSON :=
| JString (s : string)
| JBool (b : bool)
| JArray (items : list JSON)
| JObject (fields : list (string * JSON)).

(** The receiver a callback body sees. An arrow function keeps the
    [Uploader] of the enclosing method. A callback written with
    [function] receives the [this] of its caller; [fs] and the SDK call
    their callbacks as plain functions and a class body is strict code, so
    that receiver is [undefined], on which reading [log] or [error]
    throws. *)
Inductive Receiver := ThisUploader | ThisUndefined.

(** The error of reading [property] on [undefined]. *)
Definition cannotRead (property : string) : string :=
  "TypeError: Cannot read properties of undefined (reading '"
  +:+ property +:+ "')".

(** Result of running a callback body: it returns, or throws. *)
Inductive Completion (A : Type) :=
| Returns (a : A)
| Throws (error : string).
Arguments Returns {A} a.
Arguments Throws {A} error.

End JS.

(** ** Configuration ([DEFAULTS] merged with the user's object) *)

Record Config := {
  debug : bool;
  cwd : string;
  base : string;
  output : string;
  bucket : string;
  overrides : bool;
  parallelCount : nat
}.

Definition DEFAULTS (process_cwd : string) : Config := {|
  debug := false;
  cwd := process_cwd;
  base := "dist";
  output := "qiniu-upload.json";
  bucket := "static";
  overrides := false;
  parallelCount := 2
|}.

(** ** Key mapping *)

Module KeyMapper.

(** The tail of [resolveBase]: [resolved] is what [path.resolve(cwd, base)]
    returned. *)
Definition normalizeBase (resolved : string) : string :=
  JS.backslashes_to_slashes resolved +:+ "/".

(** [resolveBase()]; [path.resolve] belongs to Node and is a parameter. *)
Definition resolveBase (path_resolve : string -> string -> string)
           (cfg : Config) : string :=
  normalizeBase (path_resolve (cwd cfg) (base cfg)).

(** [let key = file.replace(base, '')] in [_createUploadTask]. *)
Definition uploadKey (resolvedBase file : string) : string :=
  JS.replace resolvedBase "" file.

(** The mapping from the resolved directory and a file path to the key. *)
Definition mapping (resolved file : string) : string :=
  uploadKey (normalizeBase resolved) file.

End KeyMapper.

(** ** One upload: [_createUploadTask] *)

Module Upload.

(** The options [buildUploadToken] signs; the signature itself is the
    SDK's business. *)
Record PutPolicy := {
  scope : string;
  expires : Z;
  insertOnly : Z
}.

Definition buildUploadToken (cfg : Config) (key : string) : PutPolicy := {|
  scope := bucket cfg +:+ ":" +:+ key;
  expires := 7200;
  insertOnly := if overrides cfg then 0 else 1
|}.

(** One call [formUploader.putFile(token, key, file, undefined, callback)]. *)
Record PutCall := {
  p_token : PutPolicy;
  p_key : string;
  p_file : string
}.

(** What the SDK hands to the callback: [respErr], or else [respInfo] with
    its [statusCode] and its [data], which may be missing and whose
    [error] field may be missing. *)
Record RespErr := { message : string; err_stack : string }.
Record RespData := { error : option string }.
Record RespInfo := { statusCode : Z; data : option RespData }.

Inductive Response :=
| CbErr (respErr : RespErr)
| CbInfo (respInfo : RespInfo).

(** The object passed to [reject]. In the [respErr] branch the stack is
    stored under the name [statck], so the [stack] the handler of [start]
    destructures is undefined there. *)
Record Rejection := {
  r_file : string;
  r_key : string;
  r_msg : string;
  r_stack : option string;
  r_statusCode : option Z
}.

Inductive Settlement :=
| Resolved (file key : string)
| Rejected (rejection : Rejection).

(** [respInfo.data && respInfo.data.error || `code: ${respInfo.statusCode}`] *)
Definition failureMessage (info : RespInfo) : string :=
  match data info with
  | Some {| error := Some e |} =>
      if JS.truthy e then e else "code: " +:+ JS.show (statusCode info)
  | _ => "code: " +:+ JS.show (statusCode info)
  end.

(** The callback given to [putFile], for the task of [file] under [key]. *)
Definition putFileCallback (file key : string) (resp : Response) : Settlement :=
  match resp with
  | CbErr respErr =>
      Rejected {| r_file := file; r_key := key; r_msg := message respErr;
                  r_stack := None; r_statusCode := None |}
  | CbInfo respInfo =>
      if (statusCode respInfo =? 200)%Z
      then Resolved file key
      else let msg := failureMessage respInfo in
           Rejected {| r_file := file; r_key := key; r_msg := msg;
                       r_stack := Some msg;
                       r_statusCode := Some (statusCode respInfo) |}
  end.

(** The synchronous part of [_createUploadTask(file)]: the call issued. *)
Definition createUploadTask (cfg : Config) (resolvedBase file : string) : PutCall :=
  let key := KeyMapper.uploadKey resolvedBase file in
  {| p_token := buildUploadToken cfg key; p_key := key; p_file := file |}.

End Upload.

(** ** The worker pool: [start] *)

Module Pool.
Import Upload.

Record SuccessEntry := { s_file : string; s_key : string; s_skipped : bool }.
Record FailEntry := { f_file : string; f_key : string; f_msg : string }.

Record Results := { success : list SuccessEntry; fail : list FailEntry }.

Record Stats := {
  st_total : Z;
  st_uploading : Z;
  st_success : Z;
  st_fail : Z
}.

(** One promise chain started by a call of [run]. *)
Inductive Worker :=
| Uploading (call : nat) (file : string)
    (** [putFile] is out, its callback has not been called *)
| Settled (file : string) (outcome : Settlement)
    (** the task's promise is settled, the handler is queued *)
| Recorded
    (** the [then]/[catch] handler has run, [then(run)] is queued *)
| Ended.
    (** [run] found no file *)

Record State := {
  loop : nat;                      (** the local [parallelCount] of the while loop *)
  targetFiles : list string;
  ended : nat;                     (** [ended.length] *)
  results : Results;
  stats : Stats;
  puts : list PutCall;             (** the [putFile] calls issued so far *)
  workers : list Worker;
  written : list (string * JS.JSON); (** the [fs.writeFile] calls issued *)
  resolved : bool                  (** the promise returned by [start] *)
}.

Definition successJSON (e : SuccessEntry) : JS.JSON :=
  JS.JObject [("file", JS.JString (s_file e)); ("key", JS.JString (s_key e));
              ("skipped", JS.JBool (s_skipped e))].

Definition failJSON (e : FailEntry) : JS.JSON :=
  JS.JObject [("file", JS.JString (f_file e)); ("key", JS.JString (f_key e));
              ("msg", JS.JString (f_msg e))].

(** The value [JSON.stringify(results, null, '\t')] serialises. *)
Definition resultsJSON (r : Results) : JS.JSON :=
  JS.JObject [("success", JS.JArray (map successJSON (success r)));
              ("fail", JS.JArray (map failJSON (fail r)))].

Section WithEnvironment.

(** [path.resolve] of Node. *)
Variable path_resolve : string -> string -> string.
(** The answer the SDK gives to the n-th [putFile] call of the run. *)
Variable remote : nat -> Response.
Variable cfg : Config.

(** The state after [await this.getWaitingUploadFiles()] and the
    declarations that follow it, before the while loop. *)
Definition init (files : list string) : State := {|
  loop := parallelCount cfg;
  targetFiles := files;
  ended := 0;
  results := {| success := []; fail := [] |};
  stats := {| st_total := Z.of_nat (length files); st_uploading := 0;
              st_success := 0; st_fail := 0 |};
  puts := [];
  workers := [];
  written := [];
  resolved := false
|}.

(** [end()]: the report is handed to [fs.writeFile] when [output] is
    truthy. *)
Definition end_ (st : State) : State :=
  if JS.truthy (output cfg)
  then {| loop := loop st; targetFiles := targetFiles st; ended := ended st;
          results := results st; stats := stats st; puts := puts st;
          workers := workers st;
          written := written st ++
            [(path_resolve (cwd cfg) (output cfg), resultsJSON (results st))];
          resolved := resolved st |}
  else st.

(** The branch [if (!file)] of [run], on the queue [rest] left by
    [pop]. *)
Definition noFile (st : State) (rest : list string) : State * Worker :=
  let st1 := {| loop := loop st; targetFiles := rest; ended := S (ended st);
                results := results st; stats := stats st; puts := puts st;
                workers := workers st; written := written st;
                resolved := resolved st |} in
  if Nat.eqb (ended st1) (parallelCount cfg)
  then let st2 := end_ st1 in
       ({| loop := loop st2; targetFiles := targetFiles st2; ended := ended st2;
           results := results st2; stats := stats st2; puts := puts st2;
           workers := workers st2; written := written st2;
           resolved := true |}, Ended)
  else (st1, Ended).

(** One call of [run]: the new state and the state of the chain this
    call belongs to. *)
Definition run (st : State) : State * Worker :=
  match JS.pop (targetFiles st) with
  | (Some file, rest) =>
      if JS.truthy file
      then ({| loop := loop st; targetFiles := rest; ended := ended st;
               results := results st;
               stats := {| st_total := st_total (stats st);
                           st_uploading := st_uploading (stats st) + 1;
                           st_success := st_success (stats st);
                           st_fail := st_fail (stats st) |};
               puts := puts st ++
                 [createUploadTask cfg (KeyMapper.resolveBase path_resolve cfg) file];
               workers := workers st; written := written st;
               resolved := resolved st |},
            Uploading (length (puts st)) file)
      else noFile st rest
  | (None, rest) => noFile st rest
  end.

(** The handler [then(({ key }) => ...)] or [catch(({ key, msg, stack }) => ...)]
    of the chain of [file]. *)
Definition handle (st : State) (file : string) (outcome : Settlement) : State :=
  match outcome with
  | Resolved _ key =>
      {| loop := loop st; targetFiles := targetFiles st; ended := ended st;
         results := {| success := success (results st) ++
                         [{| s_file := file; s_key := key; s_skipped := false |}];
                       fail := fail (results st) |};
         stats := {| st_total := st_total (stats st);
                     st_uploading := st_uploading (stats st) - 1;
                     st_success := st_success (stats st) + 1;
                     st_fail := st_fail (stats st) |};
         puts := puts st; workers := workers st; written := written st;
         resolved := resolved st |}
  | Rejected rej =>
      {| loop := loop st; targetFiles := targetFiles st; ended := ended st;
         results := {| success := success (results st);
                       fail := fail (results st) ++
                         [{| f_file := file; f_key := r_key rej; f_msg := r_msg rej |}] |};
         stats := {| st_total := st_total (stats st);
                     st_uploading := st_uploading (stats st) - 1;
                     st_success := st_success (stats st);
                     st_fail := st_fail (stats st) + 1 |};
         puts := puts st; workers := workers st; written := written st;
         resolved := resolved st |}
  end.

Definition setWorkers (st : State) (ws : list Worker) : State :=
  {| loop := loop st; targetFiles := targetFiles st; ended := ended st;
     results := results st; stats := stats st; puts := puts st;
     workers := ws; written := written st; resolved := resolved st |}.

Definition setLoop (st : State) (n : nat) : State :=
  {| loop := n; targetFiles := targetFiles st; ended := ended st;
     results := results st; stats := stats st; puts := puts st;
     workers := workers st; written := written st; resolved := resolved st |}.

(** What the event loop can do next. *)
Inductive Event :=
| Spawn              (** one iteration of [while (parallelCount--) run()] *)
| Respond (w : nat)  (** the SDK calls the [putFile] callback of chain [w] *)
| Handle (w : nat)   (** the queued [then]/[catch] handler of chain [w] runs *)
| Next (w : nat).    (** the queued [then(run)] of chain [w] runs *)

(** One event; [None] when the event cannot happen in this state. The
    while loop is synchronous, so queued promise reactions only run once
    it is over. *)
Definition step (st : State) (e : Event) : option State :=
  match e with
  | Spawn =>
      match loop st with
      | S n =>
          let '(st', wk) := run st in
          Some (setLoop (setWorkers st' (workers st' ++ [wk])) n)
      | O => None
      end
  | Respond w =>
      match workers st !! w with
      | Some (Uploading call file) =>
          let key := KeyMapper.uploadKey (KeyMapper.resolveBase path_resolve cfg) file in
          Some (setWorkers st
                  (<[w := Settled file (putFileCallback file key (remote call))]>
                     (workers st)))
      | _ => None
      end
  | Handle w =>
      match loop st, workers st !! w with
      | O, Some (Settled file outcome) =>
          let st' := handle st file outcome in
          Some (setWorkers st' (<[w := Recorded]> (workers st')))
      | _, _ => None
      end
  | Next w =>
      match loop st, workers st !! w with
      | O, Some Recorded =>
          let '(st', wk) := run st in
          Some (setWorkers st' (<[w := wk]> (workers st')))
      | _, _ => None
      end
  end.

(** A run of the event loop along a schedule. *)
Fixpoint exec (st : State) (schedule : list Event) : option State :=
  match schedule with
  | [] => Some st
  | e :: schedule' =>
      match step st e with
      | Some st' => exec st' schedule'
      | None => None
      end
  end.

(** The handler the callback of [fs.writeFile] in [end] runs: written
    with [function], it reads [this.log] from the receiver its caller
    gives it. [log] prints only in debug mode. *)
Definition writeFileCallback (this : JS.Receiver) (err : option RespErr)
  : JS.Completion (list string) :=
  match err with
  | Some e =>
      match this with
      | JS.ThisUploader =>
          JS.Returns (if debug cfg
                      then ["error occured when save upload results. " +:+ err_stack e]
                      else [])
      | JS.ThisUndefined => JS.Throws (JS.cannotRead "log")
      end
  | None => JS.Returns []
  end.

End WithEnvironment.

End Pool.

(** ** Batched deletion: [deleteFiles] *)

Module Deleter.

(** [qiniu.rs.deleteOp(bucket, key)]; the SDK's encoding of the entry is
    kept symbolic. *)
Record DeleteOp := { op_bucket : string; op_key : string }.

Definition deleteOp (bucketName key : string) : DeleteOp :=
  {| op_bucket := bucketName; op_key := key |}.

(** One item of the body of a [batch] answer: its [code], and its [data]
    when it has one, whose [error] may itself be missing. *)
Record ItemData := { item_error : option string }.
Record BatchItem := { code : Z; data : option ItemData }.

(** What the SDK hands to the callback of [batch]: [err], or else the
    status of the call and the per-key items of its body. *)
Inductive BatchResponse :=
| BatchErr (err : string)
| BatchInfo (statusCode : Z) (respBody : list BatchItem).

Inductive Logged :=
| Line (text : string)
| Body (respBody : list BatchItem)
| Undefined.

Definition tab : string := String (ascii_of_nat 9) EmptyString.

(** The function given to [respBody.forEach], on one item: the line it
    prints. For a code other than 200 it reads [item.data.error], which
    throws when the item has no [data]; a missing [error] prints as
    [undefined]. *)
Definition itemLine (item : BatchItem) : JS.Completion Logged :=
  if (code item =? 200)%Z
  then JS.Returns (Line (JS.show (code item) +:+ tab +:+ "success"))
  else match data item with
       | Some d =>
           JS.Returns (Line (JS.show (code item) +:+ tab +:+
                             match item_error d with
                             | Some e => e
                             | None => "undefined"
                             end))
       | None => JS.Throws (JS.cannotRead "error")
       end.

(** What running a piece of a callback did: the lines it printed, and the
    error it threw if it did not run to its end. *)
Record Ran := { printed : list Logged; thrown : option string }.

(** [respBody.forEach(...)]: the items in order, up to the first throw. *)
Fixpoint forEachItem (respBody : list BatchItem) : Ran :=
  match respBody with
  | [] => {| printed := []; thrown := None |}
  | item :: respBody' =>
      match itemLine item with
      | JS.Returns line =>
          let rest := forEachItem respBody' in
          {| printed := line :: printed rest; thrown := thrown rest |}
      | JS.Throws error => {| printed := []; thrown := Some error |}
      end
  end.

(** The body of the callback given to [batch], up to the final [del()].
    It is written with [function]: [this.error] is looked up on the
    receiver of the call. [parseInt(statusCode / 100)] truncates. *)
Definition batchCallback (cfg : Config) (this : JS.Receiver) (resp : BatchResponse)
  : Ran :=
  match resp with
  | BatchErr err =>
      match this with
      | JS.ThisUploader =>
          {| printed := if debug cfg then [Line err] else []; thrown := None |}
      | JS.ThisUndefined =>
          {| printed := []; thrown := Some (JS.cannotRead "error") |}
      end
  | BatchInfo statusCode respBody =>
      if (Z.quot statusCode 100 =? 2)%Z
      then forEachItem respBody
      else {| printed := [Undefined; Body respBody]; thrown := None |}
  end.

Inductive Progress :=
| Finished                  (** [del] found nothing left and returned *)
| Awaiting                  (** a [batch] call is out, no callback yet *)
| Aborted (error : string). (** a callback threw before reaching [del()] *)

Record Run := {
  batches : list (list DeleteOp);  (** the [batch] calls issued, in order *)
  console : list Logged;
  remaining : list string;         (** what is left in the array [files] *)
  progress : Progress
}.

(** [del()], with the answers the SDK will give to the successive [batch]
    calls; [this] is the receiver the SDK calls the callback with. *)
Fixpoint del (cfg : Config) (this : JS.Receiver) (responses : list BatchResponse)
         (files : list string) (issued : list (list DeleteOp))
         (out : list Logged) : Run :=
  let operations := map (deleteOp (bucket cfg)) (take 100 files) in
  let files' := drop 100 files in
  if Nat.eqb (length operations) 0
  then {| batches := issued; console := out; remaining := files';
          progress := Finished |}
  else
    match responses with
    | [] => {| batches := issued ++ [operations]; console := out;
               remaining := files'; progress := Awaiting |}
    | resp :: responses' =>
        let ran := batchCallback cfg this resp in
        match thrown ran with
        | None =>
            del cfg this responses' files' (issued ++ [operations])
                (out ++ printed ran)
        | Some error =>
            {| batches := issued ++ [operations]; console := out ++ printed ran;
               remaining := files'; progress := Aborted error |}
        end
    end.

(** [deleteFiles(files)]: the SDK calls the callback as a plain function. *)
Definition deleteFiles (cfg : Config) (responses : list BatchResponse)
           (files : list string) : Run :=
  del cfg JS.ThisUndefined responses files [] [].

(** The same loop had the callback been an arrow function. *)
Definition deleteFiles_bound (cfg : Config) (responses : list BatchResponse)
           (files : list string) : Run :=
  del cfg JS.ThisUploader responses files [] [].

End Deleter.

(** ** Paginated listing: [fetchUploadedFiles] and [_fetch] *)

Module Lister.

(** The arguments of [bucketManager.listPrefix]. *)
Record ListCall := {
  c_bucket : string;
  c_limit : Z;
  c_prefix : string;
  c_marker : string
}.

Record RespBody := {
  items : list string;      (** the [key] of every item *)
  marker : option string
}.

(** What the SDK hands to the callback of [listPrefix]. *)
Record ListResponse := {
  l_err : option string;
  l_body : RespBody;
  l_statusCode : option Z   (** [respInfo.statusCode]; [None]: no [respInfo] *)
}.

Inductive Fetched :=
| FetchResolved (respBody : RespBody)
| FetchRejected (reason : string)
| FetchNeverSettles.  (** the callback threw before settling the promise *)

(** The promise of [_fetch] once the callback has run. After [reject(err)]
    the callback goes on, but a settled promise ignores later calls. *)
Definition fetch (resp : ListResponse) : Fetched :=
  match l_err resp with
  | Some err => FetchRejected err
  | None =>
      match l_statusCode resp with
      | Some status =>
          if (status =? 200)%Z then FetchResolved (l_body resp)
          else FetchRejected (JS.show status)
      | None => FetchNeverSettles
      end
  end.

Inductive Listing :=
| ListResolved
| ListRejected (reason : string)
| ListPending.

Record Pages := {
  calls : list ListCall;
  files : list string;
  listing : Listing
}.

(** The inner [run] of [fetchUploadedFiles], with the answers the SDK will
    give to the successive [listPrefix] calls. *)
Fixpoint run (cfg : Config) (limit : Z) (prefix : string)
         (responses : list ListResponse) (from : string)
         (issued : list ListCall) (collected : list string) : Pages :=
  let issued' := issued ++ [{| c_bucket := bucket cfg; c_limit := limit;
                               c_prefix := prefix; c_marker := from |}] in
  match responses with
  | [] => {| calls := issued'; files := collected; listing := ListPending |}
  | resp :: responses' =>
      match fetch resp with
      | FetchResolved respBody =>
          let collected' := collected ++ items respBody in
          match marker respBody with
          | Some next =>
              if JS.truthy next
              then run cfg limit prefix responses' next issued' collected'
              else {| calls := issued'; files := collected'; listing := ListResolved |}
          | None => {| calls := issued'; files := collected'; listing := ListResolved |}
          end
      | FetchRejected reason =>
          {| calls := issued'; files := collected; listing := ListRejected reason |}
      | FetchNeverSettles =>
          {| calls := issued'; files := collected; listing := ListPending |}
      end
  end.

(** The destructured argument of [fetchUploadedFiles]; [storageAs] and
    [append] are not used by the body. *)
Record Args := { a_limit : option Z; a_prefix : option string }.

(** What a JavaScript call can hand back to its caller here. *)
Inductive Returned :=
| ReturnsUndefined
| ReturnsPromise.

Record Outcome := {
  returned : Returned;
  pages : option Pages;             (** [None]: the listing never started *)
  deletion : option Deleter.Run     (** [None]: [deleteFiles] was not called *)
}.

(** [fetchUploadedFiles(args)]. No branch of the body has a [return] with
    a value: the promise it builds is dropped. *)
Definition fetchUploadedFiles (cfg : Config) (args : Args)
           (listResponses : list ListResponse)
           (batchResponses : list Deleter.BatchResponse) : Outcome :=
  if negb (JS.truthy_opt (a_prefix args))
  then {| returned := ReturnsUndefined; pages := None; deletion := None |}
  else
    let limit := match a_limit args with Some l => l | None => 50%Z end in
    let prefix := match a_prefix args with Some p => p | None => "" end in
    let listed := run cfg limit prefix listResponses "" [] [] in
    {| returned := ReturnsUndefined;
       pages := Some listed;
       deletion := match listing listed with
                   | ListResolved =>
                       Some (Deleter.deleteFiles cfg batchResponses (files listed))
                   | _ => None
                   end |}.

End Lister.

(** ** The constructor, [loadEnv] and the merge of the configuration *)

Module Construct.

(** The values a configuration object holds. *)
Inductive Value :=
| VUndefined
| VNull
| VBool (b : bool)
| VNumber (n : Z)
| VString (s : string)
| VArray (items : list string)
| VZone (name : string).

Definition truthy (v : Value) : bool :=
  match v with
  | VUndefined | VNull => false
  | VBool b => b
  | VNumber n => negb (n =? 0)%Z
  | VString s => JS.truthy s
  | VArray _ | VZone _ => true
  end.

(** [o.k]: [undefined] when the object has no such property. *)
Definition get (o : gmap string Value) (k : string) : Value :=
  default VUndefined (o !! k).

(** The object [DEFAULTS]; [process_cwd] is [process.cwd()]. *)
Definition DEFAULTS (process_cwd : string) : gmap string Value :=
  list_to_map
    [("debug", VBool false);
     ("accessKey", VString "");
     ("secretKey", VString "");
     ("cwd", VString process_cwd);
     ("envFile", VString ".qiniu");
     ("base", VString "dist");
     ("output", VString "qiniu-upload.json");
     ("glob", VString "dist/**");
     ("globIgnore", VArray ["dist/!(static)/**"]);
     ("bucket", VString "static");
     ("overrides", VBool false);
     ("parallelCount", VNumber 2);
     ("zone", VZone "z0")].

(** What [dotEnv.config({ path })] returns: [error], or the [parsed]
    variables, all strings. *)
Inductive DotenvResult :=
| DotenvError (error : string)
| DotenvParsed (parsed : gmap string string).

(** [loadEnv(envPath)] *)
Definition loadEnv (dotenv : string -> DotenvResult) (envPath : string)
  : JS.Completion (gmap string string) :=
  match dotenv envPath with
  | DotenvError error => JS.Throws error
  | DotenvParsed parsed => JS.Returns parsed
  end.

Record Uploader := {
  u_config : gmap string Value;
  u_accessKey : Value;   (** the two arguments given to [qiniu.auth.digest.Mac] *)
  u_secretKey : Value
}.

(** [{ ...DEFAULTS, ...env, ...config }]: a later spread overwrites the
    properties of an earlier one; stdpp's union keeps the left one. *)
Definition merge (defaults : gmap string Value) (env : gmap string string)
           (config : gmap string Value) : gmap string Value :=
  config ∪ (VString <$> env) ∪ defaults.

Definition build (process_cwd : string) (env : gmap string string)
           (config : gmap string Value) : Uploader :=
  let merged := merge (DEFAULTS process_cwd) env config in
  {| u_config := merged;
     u_accessKey := get merged "accessKey";
     u_secretKey := get merged "secretKey" |}.

(** [new Uploader(config)]. [path.resolve] accepts strings only and throws
    a [TypeError] on anything else. What [showConfigInfo] prints is not
    modelled. *)
Definition constructor (process_cwd : string)
           (path_resolve : string -> string -> string)
           (dotenv : string -> DotenvResult)
           (config : gmap string Value) : JS.Completion Uploader :=
  let cwd := if truthy (get config "cwd") then get config "cwd"
             else get (DEFAULTS process_cwd) "cwd" in
  let envFile := match get config "envFile" with
                 | VUndefined => get (DEFAULTS process_cwd) "envFile"
                 | v => v
                 end in
  if truthy envFile
  then match cwd, envFile with
       | VString dir, VString name =>
           match loadEnv dotenv (path_resolve dir name) with
           | JS.Returns env => JS.Returns (build process_cwd env config)
           | JS.Throws error => JS.Throws error
           end
       | _, _ => JS.Throws "TypeError [ERR_INVALID_ARG_TYPE]"
       end
  else JS.Returns (build process_cwd ∅ config).

End Construct.

(** * Vocabulary of the properties *)

(** ** Batched deletion *)

Module DeleterSpec.
Import JS Deleter.

(** Consecutive pieces of at most [n] elements. *)
Fixpoint chunks {A} (fuel n : nat) (l : list A) : list (list A) :=
  match fuel with
  | O => []
  | S fuel' =>
      match l with
      | [] => []
      | _ => take n l :: chunks fuel' n (drop n l)
      end
  end.

(** The sizes of the pieces [chunks] cuts a list of [len] elements into. *)
Fixpoint sizes (fuel n len : nat) : list nat :=
  match fuel with
  | O => []
  | S fuel' =>
      if Nat.eqb len 0 then [] else Nat.min n len :: sizes fuel' n (len - n)
  end.

(** Whether the callback reaches its final [del()] on this answer. *)
Definition reachesDel (cfg : Config) (this : Receiver) (resp : BatchResponse) : bool :=
  match thrown (batchCallback cfg this resp) with
  | None => true
  | Some _ => false
  end.

(** An item as the service documents it: one with a code other than 200
    carries [data]. *)
Definition carriesData (item : BatchItem) : bool :=
  (code item =? 200)%Z ||
  match data item with Some _ => true | None => false end.

(** A batch call answered as the service documents it: without a
    transport error, and with a body whose items carry their data. *)
Definition wellFormed (resp : BatchResponse) : bool :=
  match resp with
  | BatchErr _ => false
  | BatchInfo _ respBody => forallb carriesData respBody
  end.

End DeleterSpec.

(** ** Paginated listing *)

Module ListerSpec.
Import JS Lister.

(** A successful answer of [listPrefix] carrying the page [body]. *)
Definition page (body : RespBody) : ListResponse :=
  {| l_err := None; l_body := body; l_statusCode := Some 200%Z |}.

Definition listCall (cfg : Config) (limit : Z) (prefix from : string) : ListCall :=
  {| c_bucket := bucket cfg; c_limit := limit; c_prefix := prefix; c_marker := from |}.

(** The marker a page asks the next call to carry. *)
Definition nextMarker (body : RespBody) : string :=
  match marker body with Some m => m | None => "" end.

Definition hasMore (body : RespBody) : bool := truthy_opt (marker body).

(** The marker in force after the pages [more], starting from [from]. *)
Definition markerAfter (from : string) (more : list RespBody) : string :=
  foldl (fun _ body => nextMarker body) from more.

End ListerSpec.

(** ** The worker pool *)

Module PoolSpec.
Import JS Upload Pool.

(** The report entry a settled task leaves in [results]. *)
Definition Entry : Type := SuccessEntry + FailEntry.

Definition entryOf (file : string) (outcome : Settlement) : Entry :=
  match outcome with
  | Resolved _ key => inl {| s_file := file; s_key := key; s_skipped := false |}
  | Rejected rej => inr {| f_file := file; f_key := r_key rej; f_msg := r_msg rej |}
  end.

Definition entryFile (e : Entry) : string :=
  match e with
  | inl s => s_file s
  | inr f => f_file f
  end.

Definition entries (r : Results) : list Entry :=
  map inl (success r) ++ map inr (fail r).

Definition weight (w : Worker) : nat :=
  match w with
  | Uploading _ _ => 3
  | Settled _ _ => 2
  | Recorded => 1
  | Ended => 0
  end.

(** Chains counted by [stats.uploading]: [putFile] called, handler not yet run. *)
Definition inflight (w : Worker) : nat :=
  match w with
  | Uploading _ _ | Settled _ _ => 1
  | Recorded | Ended => 0
  end.

(** Chains whose [putFile] callback is still to come. *)
Definition awaited (w : Worker) : nat :=
  match w with
  | Uploading _ _ => 1
  | _ => 0
  end.

Definition isEnded (w : Worker) : nat :=
  match w with
  | Ended => 1
  | _ => 0
  end.

Fixpoint total {A} (f : A -> nat) (l : list A) : nat :=
  match l with
  | [] => 0
  | x :: l' => f x + total f l'
  end.

Definition successes (l : list Entry) : list SuccessEntry :=
  omap (fun e => match e with inl s => Some s | inr _ => None end) l.

Definition failures (l : list Entry) : list FailEntry :=
  omap (fun e => match e with inl _ => None | inr f => Some f end) l.

Section WithEnvironment.

Variable path_resolve : string -> string -> string.
Variable remote : nat -> Response.
Variable cfg : Config.

Local Abbreviation W := (parallelCount cfg).
Local Abbreviation B := (KeyMapper.resolveBase path_resolve cfg).
Local Abbreviation reportPath := (path_resolve (cwd cfg) (output cfg)).

(** The entry the [n]-th [putFile] call of the run, made for [file], must
    end up as. *)
Definition expected (n : nat) (file : string) : Entry :=
  entryOf file (putFileCallback file (KeyMapper.uploadKey B file) (remote n)).

(** The entries still owed by the chains. *)
Definition pend (w : Worker) : list Entry :=
  match w with
  | Uploading n file => [expected n file]
  | Settled file outcome => [entryOf file outcome]
  | Recorded | Ended => []
  end.

Definition pending (ws : list Worker) : list Entry := concat (map pend ws).

Definition started (st : State) : list string := map p_file (puts st).

Definition measure (st : State) : nat :=
  loop st + 3 * length (targetFiles st) + total weight (workers st).

(** What holds in every state of a run over [files]. *)
Record Inv (files : list string) (st : State) : Prop := {
  inv_chains : loop st + length (workers st) = W;
  inv_ended : ended st = total isEnded (workers st);
  inv_uploading : st_uploading (stats st) = Z.of_nat (total inflight (workers st));
  inv_success : st_success (stats st) = Z.of_nat (length (success (results st)));
  inv_fail : st_fail (stats st) = Z.of_nat (length (fail (results st)));
  inv_total : st_total (stats st) = Z.of_nat (length files);
  inv_resolved : resolved st = true <-> ended st = W /\ 0 < W;
  inv_written :
    written st = if resolved st && truthy (output cfg)
                 then [(reportPath, resultsJSON (results st))] else [];
  inv_puts : puts st = map (createUploadTask cfg B) (started st);
  inv_entries :
    Permutation (imap expected (started st))
                (pending (workers st) ++ entries (results st));
  inv_queue :
    Forall (fun file => truthy file = true) files ->
    files = targetFiles st ++ rev (started st) /\
    (0 < ended st -> targetFiles st = [])
}.

End WithEnvironment.

Arguments inv_chains {path_resolve remote cfg files st} _.
Arguments inv_ended {path_resolve remote cfg files st} _.
Arguments inv_uploading {path_resolve remote cfg files st} _.
Arguments inv_success {path_resolve remote cfg files st} _.
Arguments inv_fail {path_resolve remote cfg files st} _.
Arguments inv_total {path_resolve remote cfg files st} _.
Arguments inv_resolved {path_resolve remote cfg files st} _.
Arguments inv_written {path_resolve remote cfg files st} _.
Arguments inv_puts {path_resolve remote cfg files st} _.
Arguments inv_entries {path_resolve remote cfg files st} _.
Arguments inv_queue {path_resolve remote cfg files st} _ _.

End PoolSpec.

(** ** A concrete run of [start] *)

Module Demo.
Import Upload Pool.

(** Enough of [path.resolve] for the examples: a relative name under an
    absolute directory. *)
Definition demo_resolve (dir name : string) : string := dir +:+ "/" +:+ name.

(** The first [putFile] call is answered with status 599, the others
    with 200. *)
Definition demo_remote (n : nat) : Response :=
  match n with
  | 0 => CbInfo {| statusCode := 599; data := None |}
  | _ => CbInfo {| statusCode := 200; data := None |}
  end.

Definition demo_cfg : Config := DEFAULTS "/w".

Definition demo_files : list string :=
  ["/w/dist/a.js"; "/w/dist/b.js"; "/w/dist/c.js"].

(** Both chains start, the second answer is handled before the first. *)
Definition demo_schedule : list Event :=
  [Spawn; Spawn; Respond 0; Respond 1; Handle 1; Handle 0;
   Next 0; Next 1; Respond 0; Handle 0; Next 0].

Definition demo_run : option State :=
  exec demo_resolve demo_remote demo_cfg (init demo_cfg demo_files) demo_schedule.

(** The state that run ends in. *)
Definition demo_final : State :=
  Eval vm_compute in
    match demo_run with
    | Some st => st
    | None => init demo_cfg demo_files
    end.

End Demo.

(** ** Further concrete runs *)

Module DemoMore.
Import Upload Pool Demo.

(** The same files and answers as in [Demo]; here the first chain is
    served twice before the second one is answered. *)
Definition demo_schedule_other : list Event :=
  [Spawn; Spawn; Respond 0; Handle 0; Next 0; Respond 0; Handle 0;
   Respond 1; Handle 1; Next 0; Next 1].

Definition demo_final_other : State :=
  Eval vm_compute in
    match exec demo_resolve demo_remote demo_cfg (init demo_cfg demo_files)
            demo_schedule_other with
    | Some st => st
    | None => init demo_cfg demo_files
    end.

(** A configuration without any worker. *)
Definition demo_cfg_idle : Config := {|
  debug := false; cwd := "/w"; base := "dist"; output := "qiniu-upload.json";
  bucket := "static"; overrides := false; parallelCount := 0
|}.

(** An env file with both keys, and an object that gives one of them. *)
Definition demo_env : gmap string string :=
  {[ "accessKey" := "ak-env"; "secretKey" := "sk-env" ]}.

Definition demo_dotenv (envPath : string) : Construct.DotenvResult :=
  Construct.DotenvParsed demo_env.

Definition demo_object : gmap string Construct.Value :=
  {[ "accessKey" := Construct.VString "ak-explicit" ]}.

Definition demo_uploader : Construct.Uploader :=
  Construct.build "/w" demo_env demo_object.

End DemoMore.

(** * Properties *)

(** ** Strings and arrays *)

Module JSFacts.
Import JS.

Lemma replace_unfold pattern replacement s :
  replace pattern replacement s =
  if startsWith pattern s
  then replacement +:+ substringFrom (String.length pattern) s
  else match s with
       | EmptyString => EmptyString
       | String c s' => String c (replace pattern replacement s')
       end.
Proof. destruct s; reflexivity. Qed.

Lemma append_nil_l (s : string) : "" +:+ s = s.
Proof. reflexivity. Qed.

Lemma append_cons c (p s : string) : String c p +:+ s = String c (p +:+ s).
Proof. reflexivity. Qed.

Lemma startsWith_append p s : startsWith p (p +:+ s) = true.
Proof.
  induction p as [|c p IH]; [reflexivity|].
  rewrite append_cons. simpl. now rewrite Ascii.eqb_refl.
Qed.

Lemma substringFrom_append p s : substringFrom (String.length p) (p +:+ s) = s.
Proof.
  induction p as [|c p IH]; [reflexivity|].
  rewrite append_cons. simpl. exact IH.
Qed.

Lemma append_assoc (a b c : string) : (a +:+ b) +:+ c = a +:+ (b +:+ c).
Proof.
  induction a as [|x a IH]; [reflexivity|].
  rewrite !append_cons. now rewrite IH.
Qed.

(** The leftmost occurrence wins: a string that starts with the pattern
    loses exactly that prefix. *)
Lemma replace_leading pattern s : replace pattern "" (pattern +:+ s) = s.
Proof.
  rewrite replace_unfold, startsWith_append, substringFrom_append. reflexivity.
Qed.

Lemma replace_absent pattern replacement s :
  occurs pattern s = false -> replace pattern replacement s = s.
Proof.
  induction s as [|c s IH]; intros H; rewrite replace_unfold.
  - simpl in H. apply orb_false_elim in H as [-> _]. reflexivity.
  - simpl in H. apply orb_false_elim in H as [Hp Ho].
    simpl in Hp |- *. rewrite Hp. f_equal. apply IH, Ho.
Qed.

Lemma startsWith_split p s :
  startsWith p s = true -> s = p +:+ substringFrom (String.length p) s.
Proof.
  revert s. induction p as [|c p IH]; intros s H; [reflexivity|].
  destruct s as [|d s]; [discriminate|]. simpl in H.
  apply andb_prop in H as [Hc Hp]. apply Ascii.eqb_eq in Hc as ->.
  rewrite append_cons. simpl. f_equal. now apply IH.
Qed.

Lemma append_length (a b : string) :
  String.length (a +:+ b) = String.length a + String.length b.
Proof.
  induction a as [|c a IH]; [reflexivity|].
  rewrite append_cons. simpl. now rewrite IH.
Qed.

Lemma occurs_intro p a b : occurs p (a +:+ p +:+ b) = true.
Proof.
  induction a as [|c a IH].
  - rewrite append_nil_l. destruct (p +:+ b) eqn:E; simpl;
      rewrite <- E, startsWith_append; reflexivity.
  - rewrite append_cons. simpl. rewrite IH. apply orb_true_r.
Qed.

(** The pattern is replaced where it first occurs. *)
Lemma replace_leftmost p rep s :
  occurs p s = true ->
  exists a b,
    s = a +:+ p +:+ b /\
    replace p rep s = a +:+ rep +:+ b /\
    forall a' b', s = a' +:+ p +:+ b' -> String.length a <= String.length a'.
Proof.
  induction s as [|c s IH]; intros H; rewrite replace_unfold.
  - simpl in H. rewrite orb_false_r in H. rewrite H.
    exists "", (substringFrom (String.length p) "").
    rewrite !append_nil_l. split; [now apply startsWith_split|].
    split; [reflexivity|]. intros; simpl; lia.
  - destruct (startsWith p (String c s)) eqn:Hp.
    + exists "", (substringFrom (String.length p) (String c s)).
      rewrite !append_nil_l. split; [now apply startsWith_split|].
      split; [reflexivity|]. intros; simpl; lia.
    + simpl in H. simpl in Hp. rewrite Hp in H. simpl in H.
      destruct (IH H) as (a & b & Hs & Hr & Hmin).
      exists (String c a), b. rewrite !append_cons.
      split; [now rewrite <- Hs|]. split; [now rewrite Hr|].
      intros a' b' E. destruct a' as [|d a'].
      * rewrite append_nil_l in E.
        assert (Hc : startsWith p (String c s) = true)
          by (rewrite E; apply startsWith_append).
        simpl in Hc. congruence.
      * rewrite append_cons in E. injection E as -> E.
        specialize (Hmin a' b' E). simpl. lia.
Qed.

Lemma backslashes_to_slashes_id s :
  occurs "\" s = false -> backslashes_to_slashes s = s.
Proof.
  induction s as [|c s IH]; [reflexivity|]. intros H.
  cbn [occurs startsWith] in H. apply orb_false_elim in H as [Hc Hs].
  rewrite andb_true_r in Hc. cbn [backslashes_to_slashes].
  destruct (Ascii.eqb_spec c "\"%char) as [->|_].
  - now rewrite Ascii.eqb_refl in Hc.
  - f_equal. now apply IH.
Qed.

Lemma pop_nil {A} : pop (@nil A) = (None, []).
Proof. reflexivity. Qed.

Lemma pop_snoc {A} (l : list A) x : pop (l ++ [x]) = (Some x, l).
Proof.
  induction l as [|y l IH]; [reflexivity|].
  change ((y :: l) ++ [x]) with (y :: (l ++ [x])).
  destruct (l ++ [x]) as [|z t] eqn:E.
  - destruct l; discriminate.
  - change (pop (y :: z :: t)) with (let '(r, rest) := pop (z :: t) in (r, y :: rest)).
    rewrite IH. reflexivity.
Qed.

Lemma snoc_cases {A} (l : list A) : l = [] \/ exists l' x, l = l' ++ [x].
Proof.
  induction l as [|l x _] using rev_ind; [left | right]; eauto.
Qed.

End JSFacts.

(** ** Key mapping *)

Module KeyMapperFacts.
Import JS JSFacts KeyMapper.

(** C3, as stated, does not hold: with the base [/dist], the key of
    [/dist/static/dist/a.js] is [static/dist/a.js], which still contains
    [/dist/]; mapping it again gives [statica.js]. And a base written with
    backslashes, followed by [/a/b.js], is not mapped to [a/b.js]: the
    path does not contain the slash-normalised base and is left whole. *)
Lemma mapping_twice_differs :
  mapping "/dist" "/dist/static/dist/a.js" = "static/dist/a.js" /\
  mapping "/dist" (mapping "/dist" "/dist/static/dist/a.js") = "statica.js" /\
  mapping "/dist" (mapping "/dist" "/dist/static/dist/a.js")
    <> mapping "/dist" "/dist/static/dist/a.js" /\
  mapping "C:\proj\dist" ("C:\proj\dist" +:+ "/a/b.js") <> "a/b.js".
Proof. repeat split; vm_compute; congruence. Qed.

(** C3, amended. Let the normalised base be the resolved base with every
    backslash turned into a slash and one slash appended. A path that
    starts with the normalised base is mapped to what follows it; so the
    slash-normalised base followed by "/a/b.js" is mapped to "a/b.js", and
    so is base + "/a/b.js" for every base without a backslash. In general
    the key is the path with the leftmost occurrence of the normalised base
    cut out: when it occurs, the path is [a ++ base ++ b] with no
    occurrence starting before the end of [a], and the key is [a ++ b];
    when it does not occur, the key is the path itself. Hence a key in
    which the normalised base does not occur is left unchanged by a second
    application, and the mapping is the identity on the key of a path that
    starts with the normalised base and does not contain it again. *)
Theorem mapping_strips_leading_base (resolved rest file : string) :
  mapping resolved (normalizeBase resolved +:+ rest) = rest /\
  mapping resolved (backslashes_to_slashes resolved +:+ "/a/b.js") = "a/b.js" /\
  (occurs "\" resolved = false ->
   mapping resolved (resolved +:+ "/a/b.js") = "a/b.js") /\
  (occurs (normalizeBase resolved) rest = false ->
   mapping resolved rest = rest /\
   mapping resolved (mapping resolved (normalizeBase resolved +:+ rest))
   = mapping resolved (normalizeBase resolved +:+ rest)) /\
  (occurs (normalizeBase resolved) file = false -> mapping resolved file = file) /\
  (occurs (normalizeBase resolved) file = true ->
   exists a b,
     file = a +:+ normalizeBase resolved +:+ b /\
     mapping resolved file = a +:+ b /\
     forall a' b', file = a' +:+ normalizeBase resolved +:+ b' ->
       String.length a <= String.length a').
Proof.
  assert (Hlead : forall r, mapping resolved (normalizeBase resolved +:+ r) = r).
  { intros r. unfold mapping, uploadKey. apply replace_leading. }
  assert (Hab : mapping resolved (backslashes_to_slashes resolved +:+ "/a/b.js")
                = "a/b.js").
  { rewrite <- (Hlead "a/b.js") at 2. f_equal.
    unfold normalizeBase. rewrite append_assoc. reflexivity. }
  split; [apply Hlead|]. split; [exact Hab|]. split; [|split; [|split]].
  - intros Hno. rewrite <- (backslashes_to_slashes_id resolved Hno) at 2.
    exact Hab.
  - intros Habs.
    assert (Hid : mapping resolved rest = rest).
    { unfold mapping, uploadKey. now apply replace_absent. }
    split; [exact Hid|]. rewrite Hlead. exact Hid.
  - intros Habs. unfold mapping, uploadKey. now apply replace_absent.
  - intros Hocc. unfold mapping, uploadKey.
    destruct (replace_leftmost (normalizeBase resolved) "" file Hocc)
      as (a & b & E & Hr & Hmin).
    rewrite append_nil_l in Hr. exists a, b. auto.
Qed.

Lemma mapping_strips_leading_base_witness :
  mapping "C:\proj\dist" ("C:/proj/dist/" +:+ "static/js/app.js") = "static/js/app.js" /\
  mapping "C:\proj\dist" "static/js/app.js" = "static/js/app.js" /\
  mapping "/w/dist" ("/w/dist" +:+ "/a/b.js") = "a/b.js" /\
  exists a b,
    "/w/x/w/dist/a.js" = a +:+ "/w/dist/" +:+ b /\
    mapping "/w/dist" "/w/x/w/dist/a.js" = a +:+ b.
Proof.
  destruct (mapping_strips_leading_base "C:\proj\dist" "static/js/app.js"
              "static/js/app.js") as (H1 & _ & _ & H3 & _).
  destruct (mapping_strips_leading_base "/w/dist" "" "/w/x/w/dist/a.js")
    as (_ & _ & H5 & _ & _ & H6).
  split; [exact H1|]. split; [apply H3; vm_compute; reflexivity|].
  split; [apply H5; vm_compute; reflexivity|].
  destruct H6 as (a & b & E & Hk & _); [vm_compute; reflexivity|].
  exists a, b. split; assumption.
Defined.

End KeyMapperFacts.

(** ** Batched deletion *)

Module DeleterFacts.
Import JS Deleter DeleterSpec.

Lemma chunks_fuel {A} (n : nat) :
  0 < n -> forall fuel fuel' (l : list A),
  length l <= fuel -> length l <= fuel' -> chunks fuel n l = chunks fuel' n l.
Proof.
  intros Hn. induction fuel as [|fuel IH]; intros fuel' l H1 H2.
  - destruct l; [|simpl in H1; lia]. destruct fuel'; reflexivity.
  - destruct l as [|x l]; [destruct fuel'; reflexivity|].
    destruct fuel' as [|fuel']; [simpl in H2; lia|].
    simpl. f_equal. apply IH.
    + rewrite length_drop. simpl in H1 |- *. lia.
    + rewrite length_drop. simpl in H2 |- *. lia.
Qed.

Lemma chunks_concat {A} (n : nat) :
  forall fuel (l : list A), length l <= fuel -> 0 < n ->
  concat (chunks fuel n l) = l.
Proof.
  induction fuel as [|fuel IH]; intros l Hl Hn.
  - destruct l; [reflexivity | simpl in Hl; lia].
  - destruct l as [|x l]; [reflexivity|].
    change (chunks (S fuel) n (x :: l))
      with (take n (x :: l) :: chunks fuel n (drop n (x :: l))).
    simpl concat. rewrite IH; [apply take_drop| |assumption].
    rewrite length_drop. simpl in Hl |- *. lia.
Qed.

Lemma chunks_bounded {A} (n : nat) :
  0 < n -> forall fuel (l : list A),
  Forall (fun b => 0 < length b <= n) (chunks fuel n l).
Proof.
  intros Hn. induction fuel as [|fuel IH]; intros l; [constructor|].
  destruct l as [|x l]; [constructor|].
  change (chunks (S fuel) n (x :: l))
    with (take n (x :: l) :: chunks fuel n (drop n (x :: l))).
  constructor; [|apply IH].
  rewrite length_take. simpl. lia.
Qed.

Lemma chunks_sizes {A} (n : nat) :
  forall fuel (l : list A),
  map length (chunks fuel n l) = sizes fuel n (length l).
Proof.
  induction fuel as [|fuel IH]; intros l; [reflexivity|].
  destruct l as [|x l]; [reflexivity|].
  change (chunks (S fuel) n (x :: l))
    with (take n (x :: l) :: chunks fuel n (drop n (x :: l))).
  change (sizes (S fuel) n (length (x :: l)))
    with (Nat.min n (length (x :: l)) :: sizes fuel n (length (x :: l) - n)).
  simpl map. rewrite IH, length_take, length_drop. reflexivity.
Qed.

Lemma chunks_map {A B} (f : A -> B) (n : nat) :
  forall fuel (l : list A),
  chunks fuel n (map f l) = map (map f) (chunks fuel n l).
Proof.
  induction fuel as [|fuel IH]; intros l; [reflexivity|].
  destruct l as [|x l]; [reflexivity|].
  change (map f (x :: l)) with (f x :: map f l) at 1.
  change (chunks (S fuel) n (f x :: map f l))
    with (take n (f x :: map f l) :: chunks fuel n (drop n (f x :: map f l))).
  change (f x :: map f l) with (map f (x :: l)).
  rewrite <- fmap_take, <- fmap_drop.
  change (fmap f) with (map f). rewrite IH. reflexivity.
Qed.

(** The rounds of [del]. *)
Lemma del_nil cfg this responses issued out :
  del cfg this responses [] issued out =
  {| batches := issued; console := out; remaining := []; progress := Finished |}.
Proof. destruct responses; reflexivity. Qed.

Lemma del_unanswered cfg this x files issued out :
  del cfg this [] (x :: files) issued out =
  {| batches := issued ++ [map (deleteOp (bucket cfg)) (take 100 (x :: files))];
     console := out; remaining := drop 100 (x :: files); progress := Awaiting |}.
Proof. reflexivity. Qed.

Lemma del_round cfg this resp responses x files issued out :
  del cfg this (resp :: responses) (x :: files) issued out =
  match thrown (batchCallback cfg this resp) with
  | None =>
      del cfg this responses (drop 100 (x :: files))
          (issued ++ [map (deleteOp (bucket cfg)) (take 100 (x :: files))])
          (out ++ printed (batchCallback cfg this resp))
  | Some error =>
      {| batches := issued ++ [map (deleteOp (bucket cfg)) (take 100 (x :: files))];
         console := out ++ printed (batchCallback cfg this resp);
         remaining := drop 100 (x :: files);
         progress := Aborted error |}
  end.
Proof. reflexivity. Qed.

(** [forEach] runs to its end exactly when every item with a code other
    than 200 carries its data; it then prints one line per item. *)
Lemma forEachItem_thrown respBody :
  thrown (forEachItem respBody) = None <-> forallb carriesData respBody = true.
Proof.
  induction respBody as [|item respBody IH]; [simpl; tauto|].
  simpl. unfold itemLine, carriesData.
  destruct (code item =? 200)%Z; simpl; [exact IH|].
  destruct (data item); simpl; [exact IH|]. split; discriminate.
Qed.

Lemma forEachItem_printed respBody :
  thrown (forEachItem respBody) = None ->
  length (printed (forEachItem respBody)) = length respBody.
Proof.
  induction respBody as [|item respBody IH]; [reflexivity|].
  simpl. destruct (itemLine item) as [line|error]; simpl; [|discriminate].
  intros H. now rewrite IH.
Qed.

Lemma wellFormed_reaches cfg this resp :
  wellFormed resp = true -> reachesDel cfg this resp = true.
Proof.
  destruct resp as [err|status body]; [discriminate|]. simpl. intros H.
  unfold reachesDel. simpl. destruct (Z.quot status 100 =? 2)%Z; [|reflexivity].
  apply forEachItem_thrown in H. now rewrite H.
Qed.

Lemma chunks_step cfg x (files : list string) :
  chunks (length (x :: files)) 100 (map (deleteOp (bucket cfg)) (x :: files)) =
  map (deleteOp (bucket cfg)) (take 100 (x :: files))
  :: chunks (length (drop 100 (x :: files))) 100
       (map (deleteOp (bucket cfg)) (drop 100 (x :: files))).
Proof.
  rewrite !chunks_map.
  change (chunks (length (x :: files)) 100 (x :: files))
    with (take 100 (x :: files) :: chunks (length files) 100 (drop 100 (x :: files))).
  simpl map. f_equal. f_equal.
  apply chunks_fuel; [lia| |lia].
  rewrite length_drop. simpl. lia.
Qed.

(** Whatever the answers, the calls issued are leading pieces of the
    partition of the keys into hundreds. *)
Lemma del_issues_chunks cfg this :
  forall responses files issued out,
  exists k,
    batches (del cfg this responses files issued out)
    = issued ++ take k (chunks (length files) 100 (map (deleteOp (bucket cfg)) files)).
Proof.
  induction responses as [|resp responses IH]; intros files issued out.
  - destruct files as [|x files].
    + exists 0. rewrite del_nil. simpl. now rewrite app_nil_r.
    + exists 1. rewrite del_unanswered, chunks_step. reflexivity.
  - destruct files as [|x files].
    + exists 0. rewrite del_nil. simpl. now rewrite app_nil_r.
    + rewrite del_round, chunks_step.
      destruct (thrown (batchCallback cfg this resp)) as [error|].
      * exists 1. reflexivity.
      * destruct (IH (drop 100 (x :: files))
                     (issued ++ [map (deleteOp (bucket cfg)) (take 100 (x :: files))])
                     (out ++ printed (batchCallback cfg this resp))) as [k Hk].
        exists (S k). rewrite Hk, <- app_assoc. reflexivity.
Qed.

(** When every callback reaches [del()], and there is an answer for every
    batch, the whole partition is issued and the loop finishes. *)
Lemma del_complete cfg this :
  forall responses files issued out,
  forallb (reachesDel cfg this) responses = true ->
  length files <= 100 * length responses ->
  let r := del cfg this responses files issued out in
  batches r = issued ++ chunks (length files) 100 (map (deleteOp (bucket cfg)) files) /\
  progress r = Finished /\ remaining r = [].
Proof.
  induction responses as [|resp responses IH]; intros files issued out Hans Hlen.
  - destruct files; [|simpl in Hlen; lia]. simpl. now rewrite app_nil_r.
  - destruct files as [|x files].
    + rewrite del_nil. simpl. now rewrite app_nil_r.
    + cbv zeta. rewrite del_round, chunks_step.
      simpl in Hans. apply andb_prop in Hans as [Hresp Hans].
      unfold reachesDel in Hresp.
      destruct (thrown (batchCallback cfg this resp)); [discriminate|].
      destruct (IH (drop 100 (x :: files))
                   (issued ++ [map (deleteOp (bucket cfg)) (take 100 (x :: files))])
                   (out ++ printed (batchCallback cfg this resp)) Hans)
        as (Hb & Hp & Hr).
      { rewrite length_drop. simpl in Hlen |- *. lia. }
      split; [|split; assumption].
      rewrite Hb, <- app_assoc. reflexivity.
Qed.

Lemma wellFormed_reachesDel cfg this responses :
  forallb wellFormed responses = true ->
  forallb (reachesDel cfg this) responses = true.
Proof.
  induction responses as [|resp responses IH]; [reflexivity|].
  simpl. intros H. apply andb_prop in H as [Hr H].
  now rewrite (IH H), (wellFormed_reaches cfg this resp Hr).
Qed.

(** An arrow function would have logged the error through the uploader and
    gone on: with the uploader as receiver [err] does not stop the loop. *)
Lemma batchCallback_bound_err cfg err :
  reachesDel cfg ThisUploader (BatchErr err) = true.
Proof. reflexivity. Qed.

(** A status outside 2xx, without [err], is printed and the loop goes on. *)
Example deleteFiles_status_500_goes_on :
  let r := deleteFiles (DEFAULTS "/w")
             [BatchInfo 500 []; BatchInfo 200 []] (replicate 150 "k") in
  map length (batches r) = [100; 50] /\ progress r = Finished /\
  console r = [Undefined; Body []].
Proof. vm_compute. repeat split. Qed.

(** An item with a code other than 200 and no [data] stops the loop as
    well: [item.data.error] throws inside [forEach], before [del()]. *)
Example deleteFiles_item_without_data :
  let r := deleteFiles (DEFAULTS "/w")
             [BatchInfo 200 [{| code := 612; data := None |}]; BatchInfo 200 []]
             (replicate 150 "k") in
  map length (batches r) = [100] /\ length (remaining r) = 50 /\
  progress r = Aborted (cannotRead "error").
Proof. vm_compute. repeat split. Qed.

(** C6: the [batch] calls [deleteFiles] issues are, in order, leading pieces
    of the partition of the keys into consecutive hundreds, each with at
    least one and at most 100 operations; when every call is answered as
    the service documents it (without [err], every item with a code other
    than 200 carrying its [data]), every piece is issued, so that the calls
    together carry every key once, in order; 250 keys give three calls of
    100, 100 and 50 operations. *)
Theorem deleteFiles_batches_of_100 cfg responses files :
  let r := deleteFiles cfg responses files in
  (exists k, batches r
             = take k (chunks (length files) 100 (map (deleteOp (bucket cfg)) files))) /\
  Forall (fun b => 0 < length b <= 100) (batches r) /\
  (forallb wellFormed responses = true ->
   length files <= 100 * length responses ->
   batches r = chunks (length files) 100 (map (deleteOp (bucket cfg)) files) /\
   concat (batches r) = map (deleteOp (bucket cfg)) files /\
   progress r = Finished /\
   (length files = 250 -> map length (batches r) = [100; 100; 50])).
Proof.
  cbv zeta. unfold deleteFiles.
  destruct (del_issues_chunks cfg ThisUndefined responses files [] []) as [k Hk].
  simpl in Hk. split; [eauto|]. split.
  - rewrite Hk. apply Forall_take, chunks_bounded. lia.
  - intros Hans Hlen.
    destruct (del_complete cfg ThisUndefined responses files [] []) as (Hb & Hp & _);
      [now apply wellFormed_reachesDel|assumption|].
    simpl in Hb. repeat split; [exact Hb| |exact Hp|].
    + rewrite Hb. apply chunks_concat; [|lia]. now rewrite length_map.
    + intros H250. rewrite Hb, chunks_sizes, length_map, H250. reflexivity.
Qed.

Lemma deleteFiles_batches_of_100_witness :
  map length
    (batches (deleteFiles (DEFAULTS "/w")
                (replicate 3 (BatchInfo 298
                                [{| code := 200; data := None |};
                                 {| code := 612;
                                    data := Some {| item_error := Some "no such file" |} |}]))
                (replicate 250 "k")))
  = [100; 100; 50].
Proof.
  destruct (deleteFiles_batches_of_100 (DEFAULTS "/w")
              (replicate 3 (BatchInfo 298
                              [{| code := 200; data := None |};
                               {| code := 612;
                                  data := Some {| item_error := Some "no such file" |} |}]))
              (replicate 250 "k"))
    as (_ & _ & H).
  destruct H as (_ & _ & _ & H).
  - vm_compute. reflexivity.
  - vm_compute. lia.
  - apply H. vm_compute. reflexivity.
Defined.

(** C7 fails on the code: when the callback of a [batch] call receives
    [err], it throws at [this.error] (the callback is a [function], its
    receiver is [undefined]), before the [del()] that would issue the
    next batch: only the first batch is ever submitted, what is left of the
    keys stays in the array, and nothing is printed. *)
Theorem deleteFiles_batch_error_aborts cfg err responses key files :
  let r := deleteFiles cfg (BatchErr err :: responses) (key :: files) in
  progress r = Aborted (cannotRead "error") /\
  batches r = [map (deleteOp (bucket cfg)) (take 100 (key :: files))] /\
  remaining r = drop 100 (key :: files) /\
  console r = [].
Proof. cbv zeta. unfold deleteFiles. rewrite del_round. repeat split. Qed.

Example deleteFiles_150_keys_first_batch_error :
  let r := deleteFiles (DEFAULTS "/w")
             [BatchErr "ETIMEDOUT"; BatchInfo 200 []] (replicate 150 "k") in
  map length (batches r) = [100] /\ length (remaining r) = 50 /\
  progress r = Aborted (cannotRead "error").
Proof. vm_compute. repeat split. Qed.

End DeleterFacts.

(** ** Paginated listing *)

Module ListerFacts.
Import JS Lister ListerSpec.

Lemma run_page_more cfg limit prefix body responses from issued collected :
  hasMore body = true ->
  run cfg limit prefix (page body :: responses) from issued collected =
  run cfg limit prefix responses (nextMarker body)
      (issued ++ [listCall cfg limit prefix from]) (collected ++ items body).
Proof.
  unfold hasMore, nextMarker. simpl.
  destruct (marker body) as [m|]; simpl; [|discriminate].
  intros ->. reflexivity.
Qed.

Lemma run_page_last cfg limit prefix body responses from issued collected :
  hasMore body = false ->
  run cfg limit prefix (page body :: responses) from issued collected =
  {| calls := issued ++ [listCall cfg limit prefix from];
     files := collected ++ items body; listing := ListResolved |}.
Proof.
  unfold hasMore. simpl.
  destruct (marker body) as [m|]; simpl; [|reflexivity].
  intros ->. reflexivity.
Qed.

(** The loop follows the pages as long as they carry a marker. *)
Lemma run_follows_pages cfg limit prefix :
  forall (more : list RespBody) responses from issued collected,
  forallb hasMore more = true ->
  run cfg limit prefix (map page more ++ responses) from issued collected =
  run cfg limit prefix responses (markerAfter from more)
      (issued ++ map (listCall cfg limit prefix)
                     (take (length more) (from :: map nextMarker more)))
      (collected ++ concat (map items more)).
Proof.
  induction more as [|body more IH]; intros responses from issued collected Hm.
  - simpl. now rewrite !app_nil_r.
  - simpl in Hm. apply andb_prop in Hm as [Hb Hm].
    change (map page (body :: more) ++ responses)
      with (page body :: (map page more ++ responses)).
    rewrite run_page_more by assumption. rewrite IH by assumption.
    change (markerAfter from (body :: more)) with (markerAfter (nextMarker body) more).
    f_equal.
    + rewrite <- app_assoc. reflexivity.
    + simpl concat. now rewrite app_assoc.
Qed.

Lemma markers_issued (from : string) (more : list RespBody) :
  take (length more) (from :: map nextMarker more) ++ [markerAfter from more]
  = from :: map nextMarker more.
Proof.
  revert from. induction more as [|body more IH]; intros from; [reflexivity|].
  change (markerAfter from (body :: more)) with (markerAfter (nextMarker body) more).
  change (take (length (body :: more)) (from :: map nextMarker (body :: more)))
    with (from :: take (length more) (nextMarker body :: map nextMarker more)).
  simpl app. now rewrite IH.
Qed.

(** The listing over the pages [more], all with a marker, then a page
    [final] without one, whatever [rest] the service would answer next. *)
Lemma run_pages cfg limit prefix more final rest :
  forallb hasMore more = true -> hasMore final = false ->
  run cfg limit prefix (map page (more ++ [final]) ++ rest) "" [] [] =
  {| calls := map (listCall cfg limit prefix) ("" :: map nextMarker more);
     files := concat (map items (more ++ [final]));
     listing := ListResolved |}.
Proof.
  intros Hm Hf. rewrite map_app, <- app_assoc.
  rewrite run_follows_pages by assumption.
  change (map page [final] ++ rest) with (page final :: rest).
  rewrite run_page_last by assumption. f_equal.
  - simpl app at 1.
    change [listCall cfg limit prefix (markerAfter "" more)]
      with (map (listCall cfg limit prefix) [markerAfter "" more]).
    rewrite <- map_app, markers_issued. reflexivity.
  - simpl app at 1. rewrite map_app, concat_app. simpl. now rewrite app_nil_r.
Qed.

(** While every page carries a marker the loop asks for one more. *)
Lemma run_pages_pending cfg limit prefix more :
  forallb hasMore more = true ->
  run cfg limit prefix (map page more) "" [] [] =
  {| calls := map (listCall cfg limit prefix) ("" :: map nextMarker more);
     files := concat (map items more);
     listing := ListPending |}.
Proof.
  intros Hm. rewrite <- (app_nil_r (map page more)).
  rewrite run_follows_pages by assumption.
  change (run cfg limit prefix [] ?from ?issued ?collected)
    with {| calls := issued ++ [listCall cfg limit prefix from];
            files := collected; listing := ListPending |}.
  f_equal. simpl app at 1.
  change [listCall cfg limit prefix (markerAfter "" more)]
    with (map (listCall cfg limit prefix) [markerAfter "" more]).
  rewrite <- map_app, markers_issued. reflexivity.
Qed.

(** C5: with a truthy prefix, [fetchUploadedFiles] calls [listPrefix] (with
    the bucket, the prefix and the limit, 50 by default) first with the
    empty marker and then with the marker of each page in turn, as
    long as the pages carry a non-empty marker; the first page with an empty
    (or missing) marker ends the listing, with the keys of all pages
    collected in order and no further call, whatever the service would have
    answered next; while no such page has come the listing is still waiting
    for the call that carries the last marker. For pages with the markers
    "m1", "m2" and "" there are exactly 3 calls, with the markers "", "m1"
    and "m2", and the keys of the three pages are collected. *)
Theorem fetchUploadedFiles_pagination cfg limitArg prefix batchResponses :
  truthy prefix = true ->
  let args := {| a_limit := limitArg; a_prefix := Some prefix |} in
  let limit := match limitArg with Some l => l | None => 50%Z end in
  (forall more final rest,
     forallb hasMore more = true -> hasMore final = false ->
     pages (fetchUploadedFiles cfg args (map page (more ++ [final]) ++ rest)
              batchResponses)
     = Some {| calls := map (listCall cfg limit prefix) ("" :: map nextMarker more);
               files := concat (map items (more ++ [final]));
               listing := ListResolved |}) /\
  (forall more,
     forallb hasMore more = true ->
     pages (fetchUploadedFiles cfg args (map page more) batchResponses)
     = Some {| calls := map (listCall cfg limit prefix) ("" :: map nextMarker more);
               files := concat (map items more);
               listing := ListPending |}) /\
  (forall keys1 keys2 keys3 rest,
     exists listed,
       pages (fetchUploadedFiles cfg args
                (page {| items := keys1; marker := Some "m1" |}
                 :: page {| items := keys2; marker := Some "m2" |}
                 :: page {| items := keys3; marker := Some "" |} :: rest)
                batchResponses) = Some listed /\
       length (calls listed) = 3 /\
       map c_marker (calls listed) = [""; "m1"; "m2"] /\
       files listed = keys1 ++ keys2 ++ keys3 /\
       listing listed = ListResolved).
Proof.
  intros Hp. cbv zeta. unfold fetchUploadedFiles. cbn [a_prefix a_limit truthy_opt].
  rewrite Hp. cbn [negb pages].
  split; [|split].
  - intros more final rest Hm Hf. f_equal. now apply run_pages.
  - intros more Hm. f_equal. now apply run_pages_pending.
  - intros keys1 keys2 keys3 rest. eexists. split; [reflexivity|].
    simpl. repeat split. now rewrite <- app_assoc.
Qed.

Lemma fetchUploadedFiles_pagination_witness :
  exists listed,
    pages (Lister.fetchUploadedFiles (DEFAULTS "/w")
             {| a_limit := Some 50%Z; a_prefix := Some "some/0.1.1/" |}
             [page {| items := ["a"]; marker := Some "m1" |};
              page {| items := ["b"; "c"]; marker := Some "m2" |};
              page {| items := ["d"]; marker := Some "" |};
              page {| items := ["e"]; marker := Some "m4" |}] [])
    = Some listed /\
    map c_marker (calls listed) = [""; "m1"; "m2"] /\
    files listed = ["a"; "b"; "c"; "d"].
Proof.
  destruct (fetchUploadedFiles_pagination (DEFAULTS "/w") (Some 50%Z) "some/0.1.1/" [])
    as (_ & _ & H); [vm_compute; reflexivity|].
  destruct (H ["a"] ["b"; "c"] ["d"] [page {| items := ["e"]; marker := Some "m4" |}])
    as (listed & Hl & _ & Hm & Hf & _).
  exists listed. repeat split; assumption.
Defined.

(** An answer that is not a page (a status other than 200, or [err]) also
    ends the listing: the promise is rejected, nothing handles the
    rejection, and [deleteFiles] is not called. *)
Example fetchUploadedFiles_listing_error :
  let o := fetchUploadedFiles (DEFAULTS "/w")
             {| a_limit := None; a_prefix := Some "p/" |}
             [page {| items := ["a"]; marker := Some "m1" |};
              {| l_err := None; l_body := {| items := []; marker := None |};
                 l_statusCode := Some 500%Z |}]
             [] in
  option_map listing (pages o) = Some (ListRejected "500") /\
  option_map (fun p => length (calls p)) (pages o) = Some 2 /\
  deletion o = None.
Proof. vm_compute. repeat split. Qed.

(** C10: [fetchUploadedFiles] hands [undefined] back to its caller on every
    path, never a promise; and with a missing or falsy prefix it stops
    before the listing: no [listPrefix] call and no [batch] call is made. *)
Theorem fetchUploadedFiles_returns_undefined cfg args listResponses batchResponses :
  let o := fetchUploadedFiles cfg args listResponses batchResponses in
  returned o = ReturnsUndefined /\
  (truthy_opt (a_prefix args) = false -> pages o = None /\ deletion o = None).
Proof.
  cbv zeta. unfold fetchUploadedFiles.
  destruct (truthy_opt (a_prefix args)); simpl.
  - split; [reflexivity | discriminate].
  - repeat split.
Qed.

Lemma fetchUploadedFiles_returns_undefined_witness :
  let o := fetchUploadedFiles (DEFAULTS "/w") {| a_limit := None; a_prefix := None |}
             [page {| items := ["a"]; marker := None |}]
             [Deleter.BatchInfo 200 []] in
  returned o = ReturnsUndefined /\ pages o = None /\ deletion o = None.
Proof.
  destruct (fetchUploadedFiles_returns_undefined (DEFAULTS "/w")
              {| a_limit := None; a_prefix := None |}
              [page {| items := ["a"]; marker := None |}]
              [Deleter.BatchInfo 200 []]) as [H1 H2].
  split; [exact H1 | apply H2; reflexivity].
Defined.

End ListerFacts.

(** ** The worker pool *)

Module PoolFacts.
Import JS JSFacts Upload Pool PoolSpec Demo.

Lemma total_snoc {A} (f : A -> nat) l x : total f (l ++ [x]) = total f l + f x.
Proof. induction l as [|y l IH]; simpl; lia. Qed.

Lemma total_insert {A} (f : A -> nat) (l : list A) w old new :
  l !! w = Some old -> total f (<[w := new]> l) + f old = total f l + f new.
Proof.
  revert w. induction l as [|y l IH]; intros [|w] H; try discriminate.
  - injection H as ->. simpl. lia.
  - simpl in H |- *. specialize (IH w H). lia.
Qed.

Lemma total_le {A} (f : A -> nat) (l : list A) :
  (forall x, f x <= 1) -> total f l <= length l.
Proof.
  intros Hf. induction l as [|x l IH]; simpl; [lia|]. specialize (Hf x). lia.
Qed.

Lemma isEnded_le w : isEnded w <= 1.
Proof. destruct w; simpl; lia. Qed.

Lemma inflight_le w : inflight w <= 1.
Proof. destruct w; simpl; lia. Qed.

Lemma awaited_le_inflight ws : total awaited ws <= total inflight ws.
Proof.
  induction ws as [|w ws IH]; simpl; [lia|]. destruct w; simpl; lia.
Qed.

Lemma ended_lt_length ws w wk :
  ws !! w = Some wk -> wk <> Ended -> total isEnded ws < length ws.
Proof.
  revert w. induction ws as [|y ws IH]; intros [|w] H Hne; try discriminate.
  - injection H as ->. simpl.
    pose proof (total_le isEnded ws isEnded_le).
    destruct wk; simpl; try lia. congruence.
  - simpl in H |- *. specialize (IH w H Hne).
    pose proof (isEnded_le y). lia.
Qed.

Lemma some_not_ended ws :
  total isEnded ws < length ws -> exists w wk, ws !! w = Some wk /\ wk <> Ended.
Proof.
  induction ws as [|y ws IH]; simpl; [lia|]. intros H.
  destruct y.
  1-3: exists 0; eexists; split; [reflexivity | discriminate].
  assert (Hlt : total isEnded ws < length ws) by (simpl in H; lia).
  destruct (IH Hlt) as (w & wk & Hw & Hne).
  exists (S w), wk. auto.
Qed.

Lemma all_ended_inflight ws :
  total isEnded ws = length ws -> total inflight ws = 0.
Proof.
  induction ws as [|y ws IH]; simpl; [reflexivity|]. intros H.
  pose proof (total_le isEnded ws isEnded_le).
  destruct y; simpl in *; lia.
Qed.

Section Run.

Variable path_resolve : string -> string -> string.
Variable remote : nat -> Response.
Variable cfg : Config.

Local Abbreviation W := (parallelCount cfg).
Local Abbreviation B := (KeyMapper.resolveBase path_resolve cfg).
Local Abbreviation reportPath := (path_resolve (cwd cfg) (output cfg)).
Local Abbreviation expected := (PoolSpec.expected path_resolve remote cfg).
Local Abbreviation pend := (PoolSpec.pend path_resolve remote cfg).
Local Abbreviation pending := (PoolSpec.pending path_resolve remote cfg).
Local Abbreviation Inv := (PoolSpec.Inv path_resolve remote cfg).

Lemma pending_snoc ws w : pending (ws ++ [w]) = pending ws ++ pend w.
Proof.
  unfold PoolSpec.pending. rewrite map_app, concat_app. simpl. now rewrite app_nil_r.
Qed.

Lemma pending_insert ws w old new :
  ws !! w = Some old ->
  Permutation (pend old ++ pending (<[w := new]> ws)) (pend new ++ pending ws).
Proof.
  revert w. induction ws as [|y ws IH]; intros [|w] H; try discriminate.
  - injection H as ->. unfold PoolSpec.pending. simpl.
    rewrite !app_assoc. apply Permutation_app_tail, Permutation_app_comm.
  - simpl in H. specialize (IH w H). unfold PoolSpec.pending in *. simpl.
    rewrite (Permutation_app_swap_app (pend old)), (Permutation_app_swap_app (pend new)).
    now apply Permutation_app_head.
Qed.

Lemma all_ended_pending ws : total isEnded ws = length ws -> pending ws = [].
Proof.
  induction ws as [|y ws IH]; [reflexivity|]. intros H.
  pose proof (total_le isEnded ws isEnded_le).
  destruct y; simpl in H; try lia.
  unfold PoolSpec.pending in *. simpl. apply IH. lia.
Qed.

Lemma noFile_spec st rest st' wk :
  noFile path_resolve cfg st rest = (st', wk) ->
  wk = Ended /\ targetFiles st' = rest /\
  loop st' = loop st /\ workers st' = workers st /\ results st' = results st /\
  stats st' = stats st /\ puts st' = puts st /\
  ended st' = S (ended st) /\
  resolved st' = (if Nat.eqb (S (ended st)) W then true else resolved st) /\
  written st' = (if Nat.eqb (S (ended st)) W && truthy (output cfg)
                 then written st ++ [(reportPath, resultsJSON (results st))]
                 else written st).
Proof.
  unfold noFile, end_. cbv zeta. cbn [ended].
  destruct (Nat.eqb (S (ended st)) W).
  - destruct (truthy (output cfg)); intros [= <- <-]; simpl; repeat split.
  - intros [= <- <-]; simpl. repeat split.
Qed.

Lemma run_spec st st' wk :
  run path_resolve cfg st = (st', wk) ->
  loop st' = loop st /\ workers st' = workers st /\ results st' = results st /\
  st_total (stats st') = st_total (stats st) /\
  st_success (stats st') = st_success (stats st) /\
  st_fail (stats st') = st_fail (stats st) /\
  ((exists file,
      targetFiles st = targetFiles st' ++ [file] /\ truthy file = true /\
      wk = Uploading (length (puts st)) file /\
      puts st' = puts st ++ [createUploadTask cfg B file] /\
      st_uploading (stats st') = (st_uploading (stats st) + 1)%Z /\
      ended st' = ended st /\ resolved st' = resolved st /\
      written st' = written st)
   \/
   (wk = Ended /\
    (targetFiles st = [] /\ targetFiles st' = [] \/
     exists file, targetFiles st = targetFiles st' ++ [file] /\ truthy file = false) /\
    puts st' = puts st /\
    st_uploading (stats st') = st_uploading (stats st) /\
    ended st' = S (ended st) /\
    resolved st' = (if Nat.eqb (S (ended st)) W then true else resolved st) /\
    written st' = (if Nat.eqb (S (ended st)) W && truthy (output cfg)
                   then written st ++ [(reportPath, resultsJSON (results st))]
                   else written st))).
Proof.
  unfold run.
  destruct (snoc_cases (targetFiles st)) as [E | (rest & file & E)]; rewrite E.
  - rewrite pop_nil. intros H. apply noFile_spec in H.
    destruct H as (-> & Ht & Hl & Hw & Hr & Hs & Hp & He & Hres & Hwr).
    rewrite Hs. repeat split; try assumption. right.
    repeat split; try assumption. left. auto.
  - rewrite pop_snoc. destruct (truthy file) eqn:Htruthy.
    + intros [= <- <-]. simpl. repeat split. left. exists file. repeat split.
      exact Htruthy.
    + intros H. apply noFile_spec in H.
      destruct H as (-> & Ht & Hl & Hw & Hr & Hs & Hp & He & Hres & Hwr).
      rewrite Hs. repeat split; try assumption. right.
      repeat split; try assumption. right. exists file. rewrite Ht. auto.
Qed.


Lemma inv_init files : Inv files (init cfg files).
Proof.
  constructor; simpl; try reflexivity.
  - lia.
  - split; [discriminate | lia].
  - intros _. split; [now rewrite app_nil_r | lia].
Qed.

Lemma inv_not_resolved files st :
  Inv files st -> ended st < W -> resolved st = false.
Proof.
  intros HI Hlt. destruct (resolved st) eqn:E; [|reflexivity].
  apply (inv_resolved HI) in E. lia.
Qed.

Lemma inv_ended_le files st : Inv files st -> ended st + loop st <= W.
Proof.
  intros HI. rewrite (inv_ended HI), <- (inv_chains HI).
  pose proof (total_le isEnded (workers st) isEnded_le). lia.
Qed.

(** A call of [run], whichever chain [ws'] records its result in. *)
Lemma inv_run files st st1 wk ws' n :
  Inv files st -> run path_resolve cfg st = (st1, wk) -> ended st < W ->
  n + length ws' = W ->
  total isEnded ws' = total isEnded (workers st) + isEnded wk ->
  total inflight ws' = total inflight (workers st) + inflight wk ->
  Permutation (pending ws') (pending (workers st) ++ pend wk) ->
  Inv files (setLoop (setWorkers st1 ws') n).
Proof.
  intros HI Hrun Hlt Hlen Hend Hinf Hpend.
  destruct (run_spec _ _ _ Hrun) as (Hl1 & Hw1 & Hr1 & Ht1 & Hs1 & Hf1 & Hcase).
  pose proof (inv_not_resolved _ _ HI Hlt) as Hnr.
  destruct HI as [Hc He Hu Hs Hf Ht Hr Hw Hp Hen Hq].
  rewrite Hnr in Hw. simpl in Hw.
  destruct Hcase as [(file & Hq1 & Htr & -> & Hp1 & Hu1 & He1 & Hres1 & Hwr1)
                    |(-> & Hq1 & Hp1 & Hu1 & He1 & Hres1 & Hwr1)].
  - assert (Hst : started st1 = started st ++ [file]).
    { unfold PoolSpec.started. rewrite Hp1, map_app. reflexivity. }
    constructor; unfold setLoop, setWorkers; cbn [loop workers ended stats results
      resolved written puts targetFiles]; unfold PoolSpec.started in *; cbn [puts].
    + exact Hlen.
    + rewrite He1, Hend, He. simpl. lia.
    + rewrite Hu1, Hinf, Hu. simpl. lia.
    + now rewrite Hs1, Hr1.
    + now rewrite Hf1, Hr1.
    + now rewrite Ht1.
    + now rewrite Hres1, He1.
    + rewrite Hres1, Hwr1, Hnr. exact Hw.
    + rewrite Hst. rewrite Hp1, map_app, <- Hp. reflexivity.
    + rewrite Hst, Hr1, Hpend, imap_app. simpl.
      rewrite Nat.add_0_r, length_map.
      rewrite Hen, <- !app_assoc. apply Permutation_app_head, Permutation_app_comm.
    + intros Hall. destruct (Hq Hall) as [Hfiles Hdrained]. split.
      * rewrite Hst, rev_app_distr. simpl. rewrite Hfiles, Hq1, <- app_assoc. reflexivity.
      * rewrite He1. intros Hpos. rewrite (Hdrained Hpos) in Hq1.
        destruct (targetFiles st1); discriminate.
  - assert (Hst : started st1 = started st).
    { unfold PoolSpec.started. now rewrite Hp1. }
    constructor; unfold setLoop, setWorkers; cbn [loop workers ended stats results
      resolved written puts targetFiles]; unfold PoolSpec.started in *; cbn [puts].
    + exact Hlen.
    + rewrite He1, Hend, He. simpl. lia.
    + rewrite Hu1, Hinf, Hu. simpl. lia.
    + now rewrite Hs1, Hr1.
    + now rewrite Hf1, Hr1.
    + now rewrite Ht1.
    + rewrite Hres1, He1. destruct (Nat.eqb_spec (S (ended st)) W) as [E|E].
      * split; [intros _; split; [exact E | lia] | reflexivity].
      * rewrite Hnr. split; [discriminate | intros [? _]; contradiction].
    + rewrite Hres1, Hwr1, Hr1, Hw.
      destruct (Nat.eqb (S (ended st)) W); [|rewrite Hnr]; reflexivity.
    + rewrite Hst. rewrite Hp1. exact Hp.
    + rewrite Hst, Hr1, Hpend. simpl. rewrite app_nil_r. exact Hen.
    + intros Hall. destruct (Hq Hall) as [Hfiles Hdrained].
      assert (Hempty : targetFiles st = [] /\ targetFiles st1 = []).
      { destruct Hq1 as [?|(file & Hq1 & Hfalsy)]; [assumption|].
        exfalso. rewrite Hfiles, Hq1 in Hall.
        rewrite !Forall_app in Hall. destruct Hall as [[_ Hall] _].
        inversion Hall; congruence. }
      destruct Hempty as [E E1]. split.
      * rewrite Hst, E1. rewrite Hfiles, E. reflexivity.
      * intros _. exact E1.
Qed.

Lemma handle_entries st file outcome :
  Permutation (entries (results (handle st file outcome)))
              (entryOf file outcome :: entries (results st)).
Proof.
  unfold entries. destruct outcome as [f key|rej]; simpl.
  - rewrite map_app. simpl. rewrite <- app_assoc. simpl.
    symmetry. apply Permutation_middle.
  - rewrite map_app. simpl. rewrite app_assoc.
    rewrite <- Permutation_cons_append. reflexivity.
Qed.

Lemma inv_step files st e st' :
  Inv files st -> step path_resolve remote cfg st e = Some st' -> Inv files st'.
Proof.
  intros HI Hstep. destruct e as [|w|w|w]; simpl in Hstep.
  - (* Spawn *)
    destruct (loop st) as [|n] eqn:Hloop; [discriminate|].
    destruct (run path_resolve cfg st) as [st1 wk] eqn:Hrun.
    injection Hstep as <-.
    destruct (run_spec _ _ _ Hrun) as (_ & Hw1 & _).
    pose proof (inv_ended_le _ _ HI). pose proof (inv_chains HI).
    apply (inv_run files st st1 wk); try assumption.
    + lia.
    + rewrite Hw1, length_app. simpl. lia.
    + rewrite Hw1. apply total_snoc.
    + rewrite Hw1. apply total_snoc.
    + rewrite Hw1, pending_snoc. reflexivity.
  - (* Respond *)
    destruct (workers st !! w) as [[n file| | |]|] eqn:Hw; try discriminate.
    injection Hstep as <-.
    pose proof (total_insert isEnded _ w _
      (Settled file (putFileCallback file (KeyMapper.uploadKey B file) (remote n))) Hw) as Hte.
    pose proof (total_insert inflight _ w _
      (Settled file (putFileCallback file (KeyMapper.uploadKey B file) (remote n))) Hw) as Hti.
    pose proof (pending_insert _ w _
      (Settled file (putFileCallback file (KeyMapper.uploadKey B file) (remote n))) Hw) as Hpi.
    simpl in Hte, Hti, Hpi. apply Permutation_cons_inv in Hpi.
    destruct HI as [Hc He Hu Hs Hf Ht Hr Hwr Hp Hen Hq].
    constructor; unfold setWorkers, PoolSpec.started in *; cbn [loop workers ended stats results
      resolved written puts targetFiles]; try assumption.
    + now rewrite length_insert.
    + lia.
    + rewrite Hu. f_equal. lia.
    + now rewrite Hpi.
  - (* Handle *)
    destruct (loop st) eqn:Hloop; [|discriminate].
    destruct (workers st !! w) as [[| file outcome | |]|] eqn:Hw; try discriminate.
    injection Hstep as <-.
    pose proof (total_insert isEnded _ w _ Recorded Hw) as Hte.
    pose proof (total_insert inflight _ w _ Recorded Hw) as Hti.
    pose proof (pending_insert _ w _ Recorded Hw) as Hpi.
    pose proof (handle_entries st file outcome) as Hhe.
    assert (Hlt : ended st < W).
    { pose proof (inv_chains HI). rewrite (inv_ended HI).
      pose proof (ended_lt_length _ _ _ Hw ltac:(discriminate)). lia. }
    pose proof (inv_not_resolved _ _ HI Hlt) as Hnr.
    simpl in Hte, Hti, Hpi.
    destruct HI as [Hc He Hu Hs Hf Ht Hr Hwr Hp Hen Hq].
    assert (Hsame : loop (handle st file outcome) = loop st /\
                    workers (handle st file outcome) = workers st /\
                    ended (handle st file outcome) = ended st /\
                    resolved (handle st file outcome) = resolved st /\
                    written (handle st file outcome) = written st /\
                    puts (handle st file outcome) = puts st /\
                    targetFiles (handle st file outcome) = targetFiles st /\
                    st_total (stats (handle st file outcome)) = st_total (stats st) /\
                    st_uploading (stats (handle st file outcome))
                    = (st_uploading (stats st) - 1)%Z).
    { destruct outcome; repeat split. }
    destruct Hsame as (H1 & H2 & H3 & H4 & H5 & H6 & H7 & H8 & H9).
    constructor; unfold setWorkers, PoolSpec.started in *; cbn [loop workers ended stats results
      resolved written puts targetFiles].
    + rewrite H1, H2, length_insert. exact Hc.
    + rewrite H2, H3. lia.
    + rewrite H2, H9, Hu. lia.
    + destruct outcome; simpl; rewrite ?length_app; simpl; lia.
    + destruct outcome; simpl; rewrite ?length_app; simpl; lia.
    + now rewrite H8.
    + now rewrite H3, H4.
    + rewrite H4, H5, Hwr, Hnr. reflexivity.
    + now rewrite H6.
    + rewrite H6, H2, Hhe, Hen, <- Hpi. simpl.
      apply Permutation_middle.
    + rewrite H3, H6, H7. exact Hq.
  - (* Next *)
    destruct (loop st) eqn:Hloop; [|discriminate].
    destruct (workers st !! w) as [[| | |]|] eqn:Hw; try discriminate.
    destruct (run path_resolve cfg st) as [st1 wk] eqn:Hrun.
    injection Hstep as <-.
    destruct (run_spec _ _ _ Hrun) as (Hl1 & Hw1 & _).
    pose proof (total_insert isEnded _ w _ wk Hw) as Hte.
    pose proof (total_insert inflight _ w _ wk Hw) as Hti.
    pose proof (pending_insert _ w _ wk Hw) as Hpi.
    simpl in Hte, Hti, Hpi.
    assert (Hlt : ended st < W).
    { pose proof (inv_chains HI). rewrite (inv_ended HI).
      pose proof (ended_lt_length _ _ _ Hw ltac:(discriminate)). lia. }
    replace (setWorkers st1 (<[w:=wk]> (workers st1)))
      with (setLoop (setWorkers st1 (<[w:=wk]> (workers st))) 0).
    2:{ unfold setLoop, setWorkers. simpl. rewrite Hl1, Hloop, Hw1. reflexivity. }
    apply (inv_run files st st1 wk); try assumption.
    + rewrite length_insert. pose proof (inv_chains HI). lia.
    + lia.
    + lia.
    + rewrite Hpi. apply Permutation_app_comm.
Qed.

Lemma inv_exec files schedule :
  forall st st', Inv files st ->
  exec path_resolve remote cfg st schedule = Some st' -> Inv files st'.
Proof.
  induction schedule as [|e schedule IH]; intros st st' HI Hexec; simpl in Hexec.
  - now injection Hexec as <-.
  - destruct (step path_resolve remote cfg st e) as [st1|] eqn:Hstep; [|discriminate].
    eapply IH; [|eassumption]. eapply inv_step; eassumption.
Qed.


(** *** Termination: every event uses up some of the work left *)

Lemma step_measure st e st' :
  step path_resolve remote cfg st e = Some st' -> measure st' < measure st.
Proof.
  intros Hstep. destruct e as [|w|w|w]; simpl in Hstep; unfold PoolSpec.measure.
  - destruct (loop st) as [|n] eqn:Hloop; [discriminate|].
    destruct (run path_resolve cfg st) as [st1 wk] eqn:Hrun.
    injection Hstep as <-.
    destruct (run_spec _ _ _ Hrun) as (_ & Hw1 & _ & _ & _ & _ & Hcase).
    unfold setLoop, setWorkers. cbn [loop workers targetFiles].
    rewrite Hw1, total_snoc.
    destruct Hcase as [(file & Hq1 & _ & -> & _)|(-> & Hq1 & _)].
    + rewrite Hq1, length_app. simpl. lia.
    + destruct Hq1 as [[-> ->]|(file & -> & _)]; rewrite ?length_app; simpl; lia.
  - destruct (workers st !! w) as [[n file| | |]|] eqn:Hw; try discriminate.
    injection Hstep as <-. unfold setWorkers. cbn [loop workers targetFiles].
    pose proof (total_insert weight _ w _
      (Settled file (putFileCallback file (KeyMapper.uploadKey B file) (remote n))) Hw) as Htw.
    simpl in Htw. lia.
  - destruct (loop st) eqn:Hloop; [|discriminate].
    destruct (workers st !! w) as [[| file outcome | |]|] eqn:Hw; try discriminate.
    injection Hstep as <-. unfold setWorkers. cbn [loop workers targetFiles].
    pose proof (total_insert weight _ w _ Recorded Hw) as Htw. simpl in Htw.
    destruct outcome; cbn [handle loop workers targetFiles]; lia.
  - destruct (loop st) eqn:Hloop; [|discriminate].
    destruct (workers st !! w) as [[| | |]|] eqn:Hw; try discriminate.
    destruct (run path_resolve cfg st) as [st1 wk] eqn:Hrun.
    injection Hstep as <-.
    destruct (run_spec _ _ _ Hrun) as (Hl1 & Hw1 & _ & _ & _ & _ & Hcase).
    unfold setWorkers. cbn [loop workers targetFiles]. rewrite Hl1, Hw1.
    pose proof (total_insert weight _ w _ wk Hw) as Htw. simpl in Htw.
    destruct Hcase as [(file & Hq1 & _ & -> & _)|(-> & Hq1 & _)].
    + rewrite Hq1, length_app. simpl in *. lia.
    + destruct Hq1 as [[-> ->]|(file & -> & _)]; rewrite ?length_app; simpl in *; lia.
Qed.

Lemma exec_measure schedule :
  forall st st', exec path_resolve remote cfg st schedule = Some st' ->
  length schedule + measure st' <= measure st.
Proof.
  induction schedule as [|e schedule IH]; intros st st' Hexec; simpl in Hexec.
  - injection Hexec as <-. simpl. lia.
  - destruct (step path_resolve remote cfg st e) as [st1|] eqn:Hstep; [|discriminate].
    apply step_measure in Hstep. apply IH in Hexec. simpl. lia.
Qed.

(** *** Progress: an unfinished run always has a callback to run *)

Lemma inv_progress files st :
  Inv files st -> 0 < W -> resolved st = false ->
  exists e st', step path_resolve remote cfg st e = Some st'.
Proof.
  intros HI HW Hnr. destruct (loop st) as [|n] eqn:Hloop.
  - assert (Hlt : total isEnded (workers st) < length (workers st)).
    { pose proof (inv_chains HI) as Hc. pose proof (inv_ended HI) as He.
      pose proof (total_le isEnded (workers st) isEnded_le).
      destruct (Nat.eq_dec (ended st) W) as [E|E].
      - assert (resolved st = true) by (apply (inv_resolved HI); auto).
        congruence.
      - lia. }
    destruct (some_not_ended _ Hlt) as (w & wk & Hw & Hne).
    destruct wk as [n file|file outcome| |]; [| | |congruence].
    + exists (Respond w). simpl. rewrite Hw. eauto.
    + exists (Handle w). simpl. rewrite Hloop, Hw. eauto.
    + exists (Next w). simpl. rewrite Hloop, Hw.
      destruct (run path_resolve cfg st). eauto.
  - exists Spawn. simpl. rewrite Hloop.
    destruct (run path_resolve cfg st). eauto.
Qed.

(** *** The state in which the promise of [start] is resolved *)

Lemma inv_completed files st :
  Inv files st -> resolved st = true ->
  loop st = 0 /\ length (workers st) = W /\ 0 < W /\
  total isEnded (workers st) = length (workers st) /\
  st_uploading (stats st) = 0%Z /\
  Permutation (imap expected (started st)) (entries (results st)) /\
  written st = (if truthy (output cfg)
                then [(reportPath, resultsJSON (results st))] else []).
Proof.
  intros HI Hres. pose proof (proj1 (inv_resolved HI) Hres) as [He HW].
  pose proof (inv_chains HI) as Hc. pose proof (inv_ended HI) as Hen.
  pose proof (total_le isEnded (workers st) isEnded_le).
  assert (Hall : total isEnded (workers st) = length (workers st)) by lia.
  repeat split; try lia.
  - rewrite (inv_uploading HI), (all_ended_inflight _ Hall). reflexivity.
  - pose proof (inv_entries HI) as Hp.
    rewrite (all_ended_pending _ Hall) in Hp. exact Hp.
  - rewrite (inv_written HI), Hres. reflexivity.
Qed.

Lemma inv_completed_files files st :
  Forall (fun file => truthy file = true) files ->
  Inv files st -> resolved st = true ->
  targetFiles st = [] /\ started st = rev files.
Proof.
  intros Hall HI Hres.
  destruct (inv_completed _ _ HI Hres) as (_ & _ & HW & _).
  pose proof (proj1 (inv_resolved HI) Hres) as [He _].
  destruct (inv_queue HI Hall) as [Hfiles Hdrained].
  assert (E : targetFiles st = []) by (apply Hdrained; lia).
  split; [exact E|]. rewrite E in Hfiles. simpl in Hfiles.
  rewrite Hfiles, rev_involutive. reflexivity.
Qed.

Lemma entryFile_expected n file : entryFile (expected n file) = file.
Proof.
  unfold PoolSpec.expected.
  destruct (putFileCallback file (KeyMapper.uploadKey B file) (remote n)); reflexivity.
Qed.

Lemma entryFile_imap l : map entryFile (imap expected l) = l.
Proof.
  change (map entryFile) with (fmap (M := list) entryFile).
  rewrite fmap_imap.
  rewrite (imap_ext _ (const id)).
  - rewrite imap_const. apply list_fmap_id.
  - intros i x _. apply entryFile_expected.
Qed.

Lemma entryFile_entries r :
  map entryFile (entries r) = map s_file (success r) ++ map f_file (fail r).
Proof.
  unfold entries. rewrite map_app, !map_map. reflexivity.
Qed.


Lemma in_entries_fail r x : In (inr x) (entries r) -> In x (fail r).
Proof.
  unfold entries. intros H. apply in_app_or in H as [H|H];
    apply in_map_iff in H as (y & Hy & Hin); congruence.
Qed.

Lemma in_entries_success r x : In (inl x) (entries r) -> In x (success r).
Proof.
  unfold entries. intros H. apply in_app_or in H as [H|H];
    apply in_map_iff in H as (y & Hy & Hin); congruence.
Qed.

Lemma pending_length ws : length (pending ws) = total inflight ws.
Proof.
  unfold PoolSpec.pending. induction ws as [|w ws IH]; [reflexivity|].
  simpl. rewrite length_app, IH. destruct w; reflexivity.
Qed.

Lemma entries_length r : length (entries r) = length (success r) + length (fail r).
Proof. unfold entries. now rewrite length_app, !length_map. Qed.

Lemma expected_in_entries files st n file :
  Forall (fun file => truthy file = true) files ->
  Inv files st -> resolved st = true ->
  rev files !! n = Some file -> In (expected n file) (entries (results st)).
Proof.
  intros Hall HI Hres Hn.
  destruct (inv_completed _ _ HI Hres) as (_ & _ & _ & _ & _ & Hp & _).
  destruct (inv_completed_files _ _ Hall HI Hres) as [_ Hst].
  rewrite Hst in Hp. apply list_elem_of_In. rewrite <- Hp.
  now apply elem_of_lookup_imap_2.
Qed.

(** C2: in every state a run of [start] can reach, over any list of files
    and for any [parallelCount], [stats.uploading] is the number of chains
    whose [putFile] call has been made and whose handler has not yet run; it
    counts every [putFile] call whose callback is still to come, it is the
    number of [putFile] calls made minus the number of outcomes recorded,
    and it is at most the number of chains, which is at most
    [parallelCount]. *)
Theorem start_uploading_bounded files schedule st :
  exec path_resolve remote cfg (init cfg files) schedule = Some st ->
  st_uploading (stats st) = Z.of_nat (total inflight (workers st)) /\
  total awaited (workers st) <= total inflight (workers st) /\
  (Z.of_nat (length (puts st))
   = st_uploading (stats st) + st_success (stats st) + st_fail (stats st))%Z /\
  length (workers st) <= W /\
  (0 <= st_uploading (stats st) <= Z.of_nat W)%Z.
Proof.
  intros Hexec.
  pose proof (inv_exec files schedule _ _ (inv_init files) Hexec) as HI.
  pose proof (inv_chains HI) as Hc. pose proof (inv_uploading HI) as Hu.
  pose proof (total_le inflight (workers st) inflight_le) as Hle.
  split; [exact Hu|]. split; [apply awaited_le_inflight|]. split; [|split; lia].
  pose proof (Permutation_length (inv_entries HI)) as Hlen.
  rewrite length_imap, length_app, pending_length, entries_length in Hlen.
  unfold PoolSpec.started in Hlen. rewrite length_map in Hlen.
  rewrite Hu, (inv_success HI), (inv_fail HI). lia.
Qed.

(** C1: over files that are all truthy (the enumerator yields absolute
    paths), in every state of a run the files given to [putFile] so far are
    distinct positions of the list; when the promise of [start] is resolved
    the files of the success and fail lists together are exactly the
    enumerated files, each position once, [putFile] has been called exactly
    once per position, the queue is empty, nothing is in flight, and
    [stats.success + stats.fail] is the number of files, the two counters
    being the lengths of the two lists. With at least one worker the run
    does complete: an unfinished run always has a callback to run, and no
    schedule is longer than [parallelCount + 3 * N]. *)
Theorem start_one_outcome_per_file files :
  Forall (fun file => truthy file = true) files ->
  (forall schedule st,
     exec path_resolve remote cfg (init cfg files) schedule = Some st ->
     files = targetFiles st ++ rev (map p_file (puts st)) /\
     (resolved st = true ->
      Permutation (map s_file (success (results st)) ++ map f_file (fail (results st)))
                  files /\
      map p_file (puts st) = rev files /\
      targetFiles st = [] /\
      st_uploading (stats st) = 0%Z /\
      (st_success (stats st) + st_fail (stats st))%Z = Z.of_nat (length files) /\
      st_success (stats st) = Z.of_nat (length (success (results st))) /\
      st_fail (stats st) = Z.of_nat (length (fail (results st))))) /\
  (0 < W ->
   forall schedule st,
     exec path_resolve remote cfg (init cfg files) schedule = Some st ->
     length schedule <= W + 3 * length files /\
     (resolved st = false ->
      exists e st', step path_resolve remote cfg st e = Some st')).
Proof.
  intros Hall. split.
  - intros schedule st Hexec.
    pose proof (inv_exec files schedule _ _ (inv_init files) Hexec) as HI.
    split; [apply (inv_queue HI Hall)|]. intros Hres.
    destruct (inv_completed _ _ HI Hres) as (_ & _ & _ & _ & Hu & Hp & _).
    destruct (inv_completed_files _ _ Hall HI Hres) as [Hq Hst].
    assert (Hperm : Permutation
              (map s_file (success (results st)) ++ map f_file (fail (results st)))
              files).
    { rewrite <- entryFile_entries, <- Hp, entryFile_imap, Hst.
      symmetry. apply Permutation_rev. }
    repeat split; try assumption.
    + apply Permutation_length in Hperm.
      rewrite length_app, !length_map in Hperm.
      rewrite (inv_success HI), (inv_fail HI). lia.
    + apply (inv_success HI).
    + apply (inv_fail HI).
  - intros HW schedule st Hexec.
    pose proof (inv_exec files schedule _ _ (inv_init files) Hexec) as HI.
    split.
    + apply exec_measure in Hexec. unfold PoolSpec.measure in Hexec at 2.
      simpl in Hexec. lia.
    + intros Hnr. eapply inv_progress; eassumption.
Qed.

(** C4: over truthy files and with at least one worker, in every state of a
    run: the handler of a chain whose task was rejected appends
    [{file, key, msg}] to the fail list and leaves everything else of the
    pool as the handler of a success does (queue, other chains, promise);
    an unfinished run always has a callback to run and no schedule is
    longer than [parallelCount + 3 * N], so the run completes; and when it
    has completed, every file whose [putFile] call was answered by [respErr]
    or by a status other than 200 has its record in the fail list, with the
    message of the error or of the status, every file answered by 200 has
    its record in the success list, and all files are accounted for. *)
Theorem start_upload_error_recorded files schedule st :
  Forall (fun file => truthy file = true) files ->
  0 < W ->
  exec path_resolve remote cfg (init cfg files) schedule = Some st ->
  (forall w file rej,
     loop st = 0 -> workers st !! w = Some (Settled file (Rejected rej)) ->
     exists st',
       step path_resolve remote cfg st (Handle w) = Some st' /\
       fail (results st') = fail (results st) ++
         [{| f_file := file; f_key := r_key rej; f_msg := r_msg rej |}] /\
       success (results st') = success (results st) /\
       workers st' = <[w := Recorded]> (workers st) /\
       targetFiles st' = targetFiles st /\
       resolved st' = resolved st) /\
  length schedule <= W + 3 * length files /\
  (resolved st = false ->
   exists e st', step path_resolve remote cfg st e = Some st') /\
  (resolved st = true ->
   Permutation (map s_file (success (results st)) ++ map f_file (fail (results st)))
               files /\
   forall n file, rev files !! n = Some file ->
     (forall respErr, remote n = CbErr respErr ->
        In {| f_file := file; f_key := KeyMapper.uploadKey B file;
              f_msg := message respErr |} (fail (results st))) /\
     (forall info, remote n = CbInfo info -> statusCode info <> 200%Z ->
        In {| f_file := file; f_key := KeyMapper.uploadKey B file;
              f_msg := failureMessage info |} (fail (results st))) /\
     (forall info, remote n = CbInfo info -> statusCode info = 200%Z ->
        In {| s_file := file; s_key := KeyMapper.uploadKey B file;
              s_skipped := false |} (success (results st)))).
Proof.
  intros Hall HW Hexec.
  pose proof (inv_exec files schedule _ _ (inv_init files) Hexec) as HI.
  split; [|split; [|split]].
  - intros w file rej Hloop Hw. simpl. rewrite Hloop, Hw.
    eexists. split; [reflexivity|]. repeat split.
  - apply exec_measure in Hexec. unfold PoolSpec.measure in Hexec at 2.
    simpl in Hexec. lia.
  - intros Hnr. eapply inv_progress; eassumption.
  - intros Hres. split.
    + destruct (inv_completed _ _ HI Hres) as (_ & _ & _ & _ & _ & Hp & _).
      destruct (inv_completed_files _ _ Hall HI Hres) as [_ Hst].
      rewrite <- entryFile_entries, <- Hp, entryFile_imap, Hst.
      symmetry. apply Permutation_rev.
    + intros n file Hn.
      pose proof (expected_in_entries files st n file Hall HI Hres Hn) as Hin.
      unfold PoolSpec.expected in Hin. repeat split.
      * intros respErr E. rewrite E in Hin. simpl in Hin.
        now apply in_entries_fail.
      * intros info E Hne. rewrite E in Hin. simpl in Hin.
        apply Z.eqb_neq in Hne. rewrite Hne in Hin. simpl in Hin.
        now apply in_entries_fail.
      * intros info E He. rewrite E in Hin. simpl in Hin.
        apply Z.eqb_eq in He. rewrite He in Hin. simpl in Hin.
        now apply in_entries_success.
Qed.


Lemma successes_entries r : successes (entries r) = success r.
Proof.
  unfold successes, entries. rewrite omap_app.
  assert (H1 : forall l : list SuccessEntry,
             omap (fun e : Entry => match e with inl s => Some s | inr _ => None end)
                  (map inl l) = l).
  { induction l as [|x l IH]; [reflexivity|]. simpl. cbn. f_equal. exact IH. }
  assert (H2 : forall l : list FailEntry,
             omap (fun e : Entry => match e with inl s => Some s | inr _ => None end)
                  (map inr l) = []).
  { induction l as [|x l IH]; [reflexivity|]. simpl. cbn. exact IH. }
  rewrite H1, H2. apply app_nil_r.
Qed.

Lemma failures_entries r : failures (entries r) = fail r.
Proof.
  unfold failures, entries. rewrite omap_app.
  assert (H1 : forall l : list SuccessEntry,
             omap (fun e : Entry => match e with inl _ => None | inr f => Some f end)
                  (map inl l) = []).
  { induction l as [|x l IH]; [reflexivity|]. simpl. cbn. exact IH. }
  assert (H2 : forall l : list FailEntry,
             omap (fun e : Entry => match e with inl _ => None | inr f => Some f end)
                  (map inr l) = l).
  { induction l as [|x l IH]; [reflexivity|]. simpl. cbn. f_equal. exact IH. }
  rewrite H1, H2. reflexivity.
Qed.

Lemma split_entries l r :
  Permutation l (entries r) ->
  Permutation (successes l) (success r) /\ Permutation (failures l) (fail r).
Proof.
  intros H. rewrite <- successes_entries, <- failures_entries.
  split; [unfold successes | unfold failures]; now rewrite H.
Qed.

Lemma failureMessage_599 d :
  d = None \/ d = Some {| error := None |} ->
  failureMessage {| statusCode := 599; data := d |} = "code: 599".
Proof. intros [->| ->]; reflexivity. Qed.

Lemma expected_599 n file d :
  remote n = CbInfo {| statusCode := 599; data := d |} ->
  d = None \/ d = Some {| error := None |} ->
  expected n file =
  inr {| f_file := file; f_key := KeyMapper.uploadKey B file; f_msg := "code: 599" |}.
Proof.
  intros E Hd. unfold PoolSpec.expected. rewrite E. simpl.
  now rewrite (failureMessage_599 d Hd).
Qed.

Lemma expected_200 n file :
  (exists info, remote n = CbInfo info /\ statusCode info = 200%Z) ->
  expected n file =
  inl {| s_file := file; s_key := KeyMapper.uploadKey B file; s_skipped := false |}.
Proof.
  intros (info & E & Hs). unfold PoolSpec.expected. rewrite E. simpl.
  apply Z.eqb_eq in Hs. now rewrite Hs.
Qed.

(** What is handed to [fs.writeFile] once the promise is resolved. *)
Lemma start_report_written files schedule st :
  exec path_resolve remote cfg (init cfg files) schedule = Some st ->
  resolved st = true -> truthy (output cfg) = true ->
  written st =
  [(reportPath,
    JObject [("success", JArray (map successJSON (success (results st))));
             ("fail", JArray (map failJSON (fail (results st))))])].
Proof.
  intros Hexec Hres Hout.
  pose proof (inv_exec files schedule _ _ (inv_init files) Hexec) as HI.
  destruct (inv_completed _ _ HI Hres) as (_ & _ & _ & _ & _ & _ & Hw).
  rewrite Hw, Hout. reflexivity.
Qed.

(** With the entries split by kind: one failure, two successes. *)
Local Ltac one_failure Hs Hf bad :=
  cbn in Hs, Hf;
  apply Permutation_length_1_inv in Hf;
  apply Permutation_length_2_inv in Hs;
  exists bad; destruct Hs as [Hs|Hs]; do 2 eexists; eauto.

(** C8: three truthy files, two workers; the [putFile] call number [b] of
    the run (calls are made from the end of the list) is answered with
    status 599 and no error field in the body, the two others with status
    200. When the promise of [start] is resolved the fail list is exactly
    the entry of that file, with its path, its key and the message
    "code: 599", the success list has exactly two entries, the three
    entries are those of the three files, and with a truthy [output] this is
    the report handed to [fs.writeFile]. *)
Theorem start_three_files_one_599 f1 f2 f3 b d schedule st :
  parallelCount cfg = 2 ->
  Forall (fun file => truthy file = true) [f1; f2; f3] ->
  b < 3 ->
  remote b = CbInfo {| statusCode := 599; data := d |} ->
  d = None \/ d = Some {| error := None |} ->
  (forall n, n < 3 -> n <> b ->
     exists info, remote n = CbInfo info /\ statusCode info = 200%Z) ->
  exec path_resolve remote cfg (init cfg [f1; f2; f3]) schedule = Some st ->
  resolved st = true ->
  exists bad s1 s2,
    [f3; f2; f1] !! b = Some bad /\
    fail (results st) =
      [{| f_file := bad; f_key := KeyMapper.uploadKey B bad; f_msg := "code: 599" |}] /\
    success (results st) = [s1; s2] /\
    Permutation [s_file s1; s_file s2; bad] [f1; f2; f3] /\
    (truthy (output cfg) = true ->
     written st =
     [(reportPath,
       JObject [("success", JArray [successJSON s1; successJSON s2]);
                ("fail", JArray [JObject [("file", JString bad);
                                          ("key", JString (KeyMapper.uploadKey B bad));
                                          ("msg", JString "code: 599")]])])]).
Proof.
  intros HW Hall Hb Hbad Hd Hok Hexec Hres.
  pose proof (inv_exec _ schedule _ _ (inv_init [f1; f2; f3]) Hexec) as HI.
  destruct (inv_completed _ _ HI Hres) as (_ & _ & _ & _ & _ & Hp & _).
  destruct (inv_completed_files _ _ Hall HI Hres) as [_ Hst].
  assert (Hfiles : Permutation
            (map s_file (success (results st)) ++ map f_file (fail (results st)))
            [f1; f2; f3]).
  { rewrite <- entryFile_entries, <- Hp, entryFile_imap, Hst.
    symmetry. apply Permutation_rev. }
  rewrite Hst in Hp. simpl in Hp.
  apply split_entries in Hp as [Hs Hf].
  assert (Hshape : exists bad s1 s2,
            [f3; f2; f1] !! b = Some bad /\
            fail (results st) =
              [{| f_file := bad; f_key := KeyMapper.uploadKey B bad;
                  f_msg := "code: 599" |}] /\
            success (results st) = [s1; s2]).
  { destruct b as [|[|[|b]]]; [| | |lia].
    - rewrite (expected_599 0 f3 d Hbad Hd) in Hs, Hf.
      rewrite (expected_200 1 f2), (expected_200 2 f1) in Hs, Hf
        by (apply Hok; lia).
      one_failure Hs Hf f3.
    - rewrite (expected_599 1 f2 d Hbad Hd) in Hs, Hf.
      rewrite (expected_200 0 f3), (expected_200 2 f1) in Hs, Hf
        by (apply Hok; lia).
      one_failure Hs Hf f2.
    - rewrite (expected_599 2 f1 d Hbad Hd) in Hs, Hf.
      rewrite (expected_200 0 f3), (expected_200 1 f2) in Hs, Hf
        by (apply Hok; lia).
      one_failure Hs Hf f1. }
  destruct Hshape as (bad & s1 & s2 & Hlook & Hfail & Hsucc).
  exists bad, s1, s2. repeat split; try assumption.
  - rewrite Hfail, Hsucc in Hfiles. exact Hfiles.
  - intros Hout. rewrite (start_report_written _ _ _ Hexec Hres Hout), Hfail, Hsucc.
    reflexivity.
Qed.

End Run.

(** C9 fails on the code: when [fs.writeFile] reports an error, its
    callback in [end], written with [function], evaluates [this.log] with
    [this] undefined and throws; nothing is printed. *)
Theorem report_write_error_throws cfg err :
  writeFileCallback cfg ThisUndefined (Some err)
  = Throws (cannotRead "log").
Proof. reflexivity. Qed.

(** Had the callback been an arrow function, the error would have gone to
    [log], which prints in debug mode only. *)
Lemma report_write_error_bound cfg err :
  writeFileCallback cfg ThisUploader (Some err)
  = Returns (if debug cfg
             then ["error occured when save upload results. " +:+ err_stack err]
             else []).
Proof. reflexivity. Qed.

Lemma demo_run_final : demo_run = Some demo_final.
Proof. vm_compute. reflexivity. Qed.

Lemma demo_files_truthy : Forall (fun file => truthy file = true) demo_files.
Proof. repeat constructor. Qed.

Lemma start_uploading_bounded_witness :
  (0 <= st_uploading (stats demo_final) <= 2)%Z.
Proof.
  apply (start_uploading_bounded demo_resolve demo_remote demo_cfg
           demo_files demo_schedule demo_final).
  vm_compute. reflexivity.
Defined.

Lemma start_one_outcome_per_file_witness :
  Permutation (map s_file (success (results demo_final))
               ++ map f_file (fail (results demo_final)))
              demo_files.
Proof.
  destruct (start_one_outcome_per_file demo_resolve demo_remote demo_cfg
              demo_files) as [H _].
  - repeat constructor.
  - destruct (H demo_schedule demo_final) as [_ Hdone].
    + vm_compute. reflexivity.
    + apply Hdone. reflexivity.
Defined.

Lemma start_upload_error_recorded_witness :
  In {| f_file := "/w/dist/c.js"; f_key := "c.js"; f_msg := "code: 599" |}
     (fail (results demo_final)).
Proof.
  destruct (start_upload_error_recorded demo_resolve demo_remote demo_cfg
              demo_files demo_schedule demo_final)
    as (_ & _ & _ & Hdone).
  - repeat constructor.
  - vm_compute. lia.
  - vm_compute. reflexivity.
  - destruct Hdone as [_ Hdone]; [reflexivity|].
    destruct (Hdone 0 "/w/dist/c.js" eq_refl) as (_ & Hstatus & _).
    apply (Hstatus {| statusCode := 599; data := None |} eq_refl).
    discriminate.
Defined.

Lemma start_three_files_one_599_witness :
  fail (results demo_final)
  = [{| f_file := "/w/dist/c.js"; f_key := "c.js"; f_msg := "code: 599" |}] /\
  length (success (results demo_final)) = 2.
Proof.
  destruct (start_three_files_one_599 demo_resolve demo_remote demo_cfg
              "/w/dist/a.js" "/w/dist/b.js" "/w/dist/c.js" 0 None
              demo_schedule demo_final)
    as (bad & s1 & s2 & Hbad & Hfail & Hsucc & _).
  - reflexivity.
  - repeat constructor.
  - lia.
  - reflexivity.
  - left. reflexivity.
  - intros [|[|[|n]]] Hn Hne; try lia; eexists; split; reflexivity.
  - vm_compute. reflexivity.
  - reflexivity.
  - injection Hbad as <-. rewrite Hfail, Hsucc. split; reflexivity.
Defined.

(** Why the files have to be truthy: an empty string in the array is taken
    by [if (!file)] for the end of the queue, and the chain that pops it
    ends without uploading anything. *)
Example start_falsy_file_ends_a_chain :
  let cfg := {| debug := false; cwd := "/w"; base := "dist";
                output := "qiniu-upload.json"; bucket := "static";
                overrides := false; parallelCount := 1 |} in
  option_map
    (fun st => (resolved st, map p_file (puts st), targetFiles st))
    (exec demo_resolve demo_remote cfg (init cfg ["/w/dist/a.js"; ""]) [Spawn])
  = Some (true, [], ["/w/dist/a.js"]).
Proof. vm_compute. reflexivity. Qed.

(** Without a worker nothing ever happens: no event is possible in the
    initial state and the promise stays unresolved. *)
Example start_no_worker_never_resolves path_resolve remote files e :
  let cfg := {| debug := false; cwd := "/w"; base := "dist";
                output := "qiniu-upload.json"; bucket := "static";
                overrides := false; parallelCount := 0 |} in
  step path_resolve remote cfg (init cfg files) e = None /\
  resolved (init cfg files) = false.
Proof. destruct e as [|w|w|w]; simpl; split; try reflexivity; destruct w; reflexivity. Qed.

End PoolFacts.

(** ** More on the key mapping *)

Module KeyMapperMore.
Import JS JSFacts KeyMapper.

Lemma occurs_suffix p q s : occurs (p +:+ q) s = true -> occurs q s = true.
Proof.
  intros H. destruct (replace_leftmost (p +:+ q) "" s H) as (a & b & E & _).
  rewrite E, append_assoc, <- (append_assoc a p). apply occurs_intro.
Qed.

Lemma backslashes_to_slashes_append a b :
  backslashes_to_slashes (a +:+ b)
  = backslashes_to_slashes a +:+ backslashes_to_slashes b.
Proof.
  induction a as [|c a IH]; [reflexivity|].
  rewrite append_cons. simpl. rewrite append_cons. now rewrite IH.
Qed.

(** X1: when the normalised base occurs in the path, the key is the path
    with its leftmost occurrence cut out: the path is [a ++ base ++ b], the
    key is [a ++ b], and no occurrence starts before [a] ends; so the key
    is shorter than the path by the length of the base. *)
Theorem mapping_cuts_leftmost_base resolved file :
  occurs (normalizeBase resolved) file = true ->
  exists a b,
    file = a +:+ normalizeBase resolved +:+ b /\
    mapping resolved file = a +:+ b /\
    (forall a' b', file = a' +:+ normalizeBase resolved +:+ b' ->
       String.length a <= String.length a') /\
    String.length (mapping resolved file) + String.length (normalizeBase resolved)
    = String.length file.
Proof.
  intros H. unfold mapping, uploadKey.
  destruct (replace_leftmost (normalizeBase resolved) "" file H)
    as (a & b & E & Hr & Hmin).
  rewrite append_nil_l in Hr.
  exists a, b. repeat split; try assumption.
  rewrite Hr, E, !append_length. lia.
Qed.

Lemma mapping_cuts_leftmost_base_witness :
  exists a b,
    "/w/dist/x/w/dist/a.js" = a +:+ "/w/dist/" +:+ b /\
    mapping "/w/dist" "/w/dist/x/w/dist/a.js" = a +:+ b /\
    String.length a = 0.
Proof.
  destruct (mapping_cuts_leftmost_base "/w/dist" "/w/dist/x/w/dist/a.js")
    as (a & b & E & Hk & Hmin & _); [vm_compute; reflexivity|].
  exists a, b. repeat split; try assumption.
  specialize (Hmin "" "x/w/dist/a.js" eq_refl). simpl in Hmin. lia.
Defined.

(** X2: the normalised base always ends in a slash, so a path without any
    forward slash (a path written with backslashes, say) is its own key;
    and when the base resolves to a root, which already ends in a
    separator, the normalised base ends in two slashes and every path
    without a double slash is its own key. *)
Theorem mapping_keeps_paths_without_separator resolved file :
  (occurs "/" file = false -> mapping resolved file = file) /\
  (occurs "//" file = false ->
   mapping (resolved +:+ "/") file = file /\
   mapping (resolved +:+ "\") file = file).
Proof.
  split.
  - intros H. unfold mapping, uploadKey. apply replace_absent.
    destruct (occurs (normalizeBase resolved) file) eqn:E; [|reflexivity].
    unfold normalizeBase in E. apply occurs_suffix in E. congruence.
  - intros H. split; unfold mapping, uploadKey; apply replace_absent.
    + destruct (occurs (normalizeBase (resolved +:+ "/")) file) eqn:E; [|reflexivity].
      unfold normalizeBase in E.
      rewrite backslashes_to_slashes_append, append_assoc in E.
      apply occurs_suffix in E.
      change (backslashes_to_slashes "/" +:+ "/") with "//" in E. congruence.
    + destruct (occurs (normalizeBase (resolved +:+ "\")) file) eqn:E; [|reflexivity].
      unfold normalizeBase in E.
      rewrite backslashes_to_slashes_append, append_assoc in E.
      apply occurs_suffix in E.
      change (backslashes_to_slashes "\" +:+ "/") with "//" in E. congruence.
Qed.

Lemma mapping_keeps_paths_without_separator_witness :
  mapping "C:\proj\dist" "C:\proj\dist\app.js" = "C:\proj\dist\app.js" /\
  mapping "/" "/dist/app.js" = "/dist/app.js".
Proof.
  split.
  - apply (mapping_keeps_paths_without_separator "C:\proj\dist" "C:\proj\dist\app.js").
    vm_compute. reflexivity.
  - apply (mapping_keeps_paths_without_separator "" "/dist/app.js").
    vm_compute. reflexivity.
Defined.

End KeyMapperMore.

(** ** More on the worker pool *)

Module PoolMore.
Import JS JSFacts Upload Pool PoolSpec Demo DemoMore PoolFacts.

Section Run.

Variable path_resolve : string -> string -> string.
Variable remote : nat -> Response.
Variable cfg : Config.

Local Abbreviation W := (parallelCount cfg).
Local Abbreviation B := (KeyMapper.resolveBase path_resolve cfg).
Local Abbreviation reportPath := (path_resolve (cwd cfg) (output cfg)).
Local Abbreviation expected := (PoolSpec.expected path_resolve remote cfg).
Local Abbreviation Inv := (PoolSpec.Inv path_resolve remote cfg).
Local Abbreviation run := (Pool.run path_resolve cfg).
Local Abbreviation step := (Pool.step path_resolve remote cfg).
Local Abbreviation exec := (Pool.exec path_resolve remote cfg).

Lemma reachable_inv files schedule st :
  exec (init cfg files) schedule = Some st -> Inv files st.
Proof. apply inv_exec, inv_init. Qed.

(** *** What is popped, and what is uploaded of it *)

Lemma popped_run files st st1 wk :
  (exists popped, files = targetFiles st ++ rev popped /\
                  started st = List.filter truthy popped) ->
  run st = (st1, wk) ->
  exists popped, files = targetFiles st1 ++ rev popped /\
                 started st1 = List.filter truthy popped.
Proof.
  intros (popped & Hf & Hs) Hrun.
  destruct (run_spec _ _ _ _ _ Hrun) as (_ & _ & _ & _ & _ & _ & Hcase).
  destruct Hcase as [(file & Hq & Ht & _ & Hp & _)
                    |(_ & [[Hq Hq1]|(file & Hq & Ht)] & Hp & _)].
  - exists (popped ++ [file]). split.
    + rewrite rev_app_distr. simpl. rewrite Hf, Hq, <- app_assoc. reflexivity.
    + unfold started in *. rewrite Hp, map_app, Hs, List.filter_app.
      simpl. now rewrite Ht.
  - exists popped. unfold started in *. rewrite Hp, Hq1. rewrite Hq in Hf. auto.
  - exists (popped ++ [file]). split.
    + rewrite rev_app_distr. simpl. rewrite Hf, Hq, <- app_assoc. reflexivity.
    + unfold started in *. rewrite Hp, Hs, List.filter_app.
      simpl. rewrite Ht. now rewrite app_nil_r.
Qed.

Lemma popped_step files st e st' :
  (exists popped, files = targetFiles st ++ rev popped /\
                  started st = List.filter truthy popped) ->
  step st e = Some st' ->
  exists popped, files = targetFiles st' ++ rev popped /\
                 started st' = List.filter truthy popped.
Proof.
  intros HP Hstep. destruct e as [|w|w|w]; simpl in Hstep.
  - destruct (loop st); [discriminate|].
    destruct (Pool.run path_resolve cfg st) as [st1 wk] eqn:Hrun.
    injection Hstep as <-. apply (popped_run files st st1 wk HP Hrun).
  - destruct (workers st !! w) as [[| | |]|]; try discriminate.
    injection Hstep as <-. exact HP.
  - destruct (loop st); [|discriminate].
    destruct (workers st !! w) as [[|file outcome| |]|]; try discriminate.
    injection Hstep as <-. destruct outcome; exact HP.
  - destruct (loop st); [|discriminate].
    destruct (workers st !! w) as [[| | |]|]; try discriminate.
    destruct (Pool.run path_resolve cfg st) as [st1 wk] eqn:Hrun.
    injection Hstep as <-. apply (popped_run files st st1 wk HP Hrun).
Qed.

Lemma filter_truthy popped : Forall (fun f => truthy f = true) (List.filter truthy popped).
Proof.
  apply Forall_forall. intros f Hin. apply list_elem_of_In in Hin.
  now apply List.filter_In in Hin.
Qed.

Lemma popped_exec files schedule :
  forall st st',
  (exists popped, files = targetFiles st ++ rev popped /\
                  started st = List.filter truthy popped) ->
  exec st schedule = Some st' ->
  exists popped, files = targetFiles st' ++ rev popped /\
                 started st' = List.filter truthy popped.
Proof.
  induction schedule as [|e schedule IH]; intros st st' HP Hexec; simpl in Hexec.
  - now injection Hexec as <-.
  - destruct (Pool.step path_resolve remote cfg st e) as [st1|] eqn:Hstep;
      [|discriminate].
    eapply IH; [|eassumption]. eapply popped_step; eassumption.
Qed.

(** X3: whatever the list holds (empty strings included), in every state of
    a run the array is what is left of the list after popping some files
    off its end, and [putFile] has been called exactly for the truthy ones
    among the popped files, in the order they were popped: no position of
    the list is uploaded twice, nothing is uploaded that is not in the
    list, and an empty path is never uploaded. *)
Theorem start_uploads_popped_truthy files schedule st :
  exec (init cfg files) schedule = Some st ->
  exists popped,
    files = targetFiles st ++ rev popped /\
    map p_file (puts st) = List.filter truthy popped /\
    Forall (fun file => truthy file = true) (map p_file (puts st)).
Proof.
  intros Hexec.
  destruct (popped_exec files schedule (init cfg files) st) as (popped & Hf & Hs).
  - exists []. simpl. now rewrite app_nil_r.
  - exact Hexec.
  - exists popped. unfold started in Hs. repeat split; try assumption.
    rewrite Hs. apply filter_truthy.
Qed.

(** X4: every [putFile] call of a run carries the key the mapping gives to
    its file, and a token for that key alone: scope [bucket:key], valid
    7200 seconds, insert-only unless [overrides] is set. *)
Theorem start_put_calls_scoped files schedule st :
  exec (init cfg files) schedule = Some st ->
  Forall (fun p =>
            p_key p = KeyMapper.mapping (path_resolve (cwd cfg) (base cfg)) (p_file p) /\
            scope (p_token p) = bucket cfg +:+ ":" +:+ p_key p /\
            expires (p_token p) = 7200%Z /\
            insertOnly (p_token p) = (if overrides cfg then 0 else 1)%Z)
         (puts st).
Proof.
  intros Hexec. pose proof (inv_puts (reachable_inv _ _ _ Hexec)) as Hp.
  rewrite Hp. apply Forall_forall. intros p Hin.
  apply list_elem_of_In, in_map_iff in Hin as (file & <- & _).
  repeat split.
Qed.

Lemma expected_keyed n file :
  match expected n file with
  | inl s => s_file s = file /\ s_key s = KeyMapper.uploadKey B file /\ s_skipped s = false
  | inr f => f_file f = file /\ f_key f = KeyMapper.uploadKey B file
  end.
Proof.
  unfold PoolSpec.expected. destruct (remote n) as [respErr|info]; simpl.
  - repeat split.
  - destruct (statusCode info =? 200)%Z; simpl; repeat split.
Qed.

(** X5: in every state of a run, every entry of the two result lists
    carries the key the mapping gives to its file, and every success entry
    has [skipped] false. *)
Theorem start_entries_keyed files schedule st :
  exec (init cfg files) schedule = Some st ->
  Forall (fun s => s_key s = KeyMapper.mapping (path_resolve (cwd cfg) (base cfg)) (s_file s)
                   /\ s_skipped s = false)
         (success (results st)) /\
  Forall (fun f => f_key f = KeyMapper.mapping (path_resolve (cwd cfg) (base cfg)) (f_file f))
         (fail (results st)).
Proof.
  intros Hexec. pose proof (inv_entries (reachable_inv _ _ _ Hexec)) as Hp.
  assert (Hall : forall e, In e (entries (results st)) ->
            exists n file, e = expected n file).
  { intros e Hin.
    assert (He : e ∈ imap expected (started st)).
    { rewrite Hp. apply list_elem_of_In, in_or_app. now right. }
    apply elem_of_lookup_imap_1 in He as (n & file & -> & _). eauto. }
  split; apply Forall_forall; intros x Hin; apply list_elem_of_In in Hin.
  - destruct (Hall (inl x)) as (n & file & E).
    { unfold entries. apply in_or_app. left. now apply in_map. }
    pose proof (expected_keyed n file) as Hk. rewrite <- E in Hk.
    destruct Hk as (-> & Hk & Hsk). now split.
  - destruct (Hall (inr x)) as (n & file & E).
    { unfold entries. apply in_or_app. right. now apply in_map. }
    pose proof (expected_keyed n file) as Hk. rewrite <- E in Hk.
    destruct Hk as (-> & Hk). exact Hk.
Qed.

(** X6: over truthy files the counters of the progress line always add up:
    [stats.total] is what is left in the array plus [stats.uploading],
    [stats.success] and [stats.fail]. *)
Theorem start_counters_add_up files schedule st :
  Forall (fun file => truthy file = true) files ->
  exec (init cfg files) schedule = Some st ->
  st_total (stats st)
  = (Z.of_nat (length (targetFiles st)) + st_uploading (stats st)
     + st_success (stats st) + st_fail (stats st))%Z.
Proof.
  intros Hall Hexec. pose proof (reachable_inv _ _ _ Hexec) as HI.
  destruct (inv_queue HI Hall) as [Hf _].
  pose proof (Permutation_length (inv_entries HI)) as Hlen.
  rewrite length_imap, length_app, pending_length, entries_length in Hlen.
  apply (f_equal (@length _)) in Hf. rewrite length_app, length_rev in Hf.
  rewrite (inv_total HI), (inv_uploading HI), (inv_success HI), (inv_fail HI). lia.
Qed.

Lemma all_ended_lookup ws w wk :
  total isEnded ws = length ws -> ws !! w = Some wk -> wk = Ended.
Proof.
  intros Hall Hw. destruct wk; try reflexivity;
    pose proof (ended_lt_length ws w _ Hw ltac:(discriminate)); lia.
Qed.

(** X7: once the promise of [start] is resolved nothing is left to run: no
    callback of the pool can happen any more, so the results are final; and
    [fs.writeFile] is called at most once in a run, only at that moment,
    only when [output] is truthy, and with the results as they then are. *)
Theorem start_resolves_last files schedule st :
  exec (init cfg files) schedule = Some st ->
  (resolved st = true -> forall e, step st e = None) /\
  written st = (if resolved st && truthy (output cfg)
                then [(reportPath, resultsJSON (results st))] else []).
Proof.
  intros Hexec. pose proof (reachable_inv _ _ _ Hexec) as HI.
  split; [|apply (inv_written HI)].
  intros Hres e.
  destruct (inv_completed _ _ _ _ _ HI Hres) as (Hloop & _ & _ & Hall & _).
  destruct e as [|w|w|w]; simpl; rewrite ?Hloop; try reflexivity;
    destruct (workers st !! w) as [wk|] eqn:Hw; try reflexivity;
    rewrite (all_ended_lookup _ _ _ Hall Hw); reflexivity.
Qed.

(** X8: the report does not depend on the interleaving: two runs over the
    same truthy files against the same answers that both resolve end with
    the same success entries and the same fail entries, up to their order. *)
Theorem start_report_schedule_independent files schedule1 schedule2 st1 st2 :
  Forall (fun file => truthy file = true) files ->
  exec (init cfg files) schedule1 = Some st1 -> resolved st1 = true ->
  exec (init cfg files) schedule2 = Some st2 -> resolved st2 = true ->
  Permutation (success (results st1)) (success (results st2)) /\
  Permutation (fail (results st1)) (fail (results st2)).
Proof.
  intros Hall H1 R1 H2 R2.
  pose proof (reachable_inv _ _ _ H1) as I1. pose proof (reachable_inv _ _ _ H2) as I2.
  destruct (inv_completed _ _ _ _ _ I1 R1) as (_ & _ & _ & _ & _ & P1 & _).
  destruct (inv_completed _ _ _ _ _ I2 R2) as (_ & _ & _ & _ & _ & P2 & _).
  destruct (inv_completed_files _ _ _ _ _ Hall I1 R1) as [_ S1].
  destruct (inv_completed_files _ _ _ _ _ Hall I2 R2) as [_ S2].
  rewrite S1 in P1. rewrite S2 in P2.
  apply split_entries in P1 as [Ps1 Pf1]. apply split_entries in P2 as [Ps2 Pf2].
  split; [rewrite <- Ps1, <- Ps2 | rewrite <- Pf1, <- Pf2]; reflexivity.
Qed.

(** *** The synchronous spawning loop *)

Lemma spawn_loop k :
  forall st,
  loop st = k ->
  Forall (fun file => truthy file = true) (targetFiles st) ->
  exists st',
    exec st (replicate k Spawn) = Some st' /\
    loop st' = 0 /\
    length (targetFiles st') = length (targetFiles st) - k /\
    length (puts st') = length (puts st) + Nat.min k (length (targetFiles st)) /\
    st_uploading (stats st')
    = (st_uploading (stats st) + Z.of_nat (Nat.min k (length (targetFiles st))))%Z /\
    ended st' = ended st + (k - length (targetFiles st)) /\
    results st' = results st.
Proof.
  induction k as [|k IH]; intros st Hloop Hall.
  - exists st. simpl. repeat split; try assumption; lia.
  - change (replicate (S k) Spawn) with (Spawn :: replicate k Spawn).
    cbn [Pool.exec Pool.step]. rewrite Hloop.
    destruct (Pool.run path_resolve cfg st) as [st1 wk] eqn:Hrun.
    destruct (run_spec _ _ _ _ _ Hrun) as (_ & _ & Hr1 & _ & _ & _ & Hcase).
    set (st2 := setLoop (setWorkers st1 (workers st1 ++ [wk])) k).
    assert (Hproj : loop st2 = k /\ targetFiles st2 = targetFiles st1 /\
                    puts st2 = puts st1 /\ stats st2 = stats st1 /\
                    ended st2 = ended st1 /\ results st2 = results st1)
      by (repeat split).
    destruct Hproj as (Hl2 & Ht2 & Hp2 & Hs2 & He2 & Hr2).
    destruct Hcase as [(file & Hq & _ & _ & Hp & Hu & He & _)
                      |(_ & [[Hq Hq1]|(file & Hq & Hfalsy)] & Hp & Hu & He & _)].
    + destruct (IH st2 Hl2) as (st' & Hexec & H1 & H2 & H3 & H4 & H5 & H6).
      { rewrite Ht2. rewrite Hq in Hall. now apply Forall_app in Hall as [Hall _]. }
      exists st'. split; [exact Hexec|].
      rewrite Ht2 in *. rewrite Hp2, Hs2, He2, Hr2 in *.
      rewrite Hq, length_app. change (length [file]) with 1.
      rewrite H2, H3, H4, H5, H6, Hp, Hu, He, Hr1, length_app.
      change (length [createUploadTask cfg B file]) with 1.
      repeat split; lia.
    + destruct (IH st2 Hl2) as (st' & Hexec & H1 & H2 & H3 & H4 & H5 & H6).
      { rewrite Ht2, Hq1. constructor. }
      exists st'. split; [exact Hexec|].
      rewrite Ht2 in *. rewrite Hp2, Hs2, He2, Hr2 in *.
      rewrite Hq1 in *. rewrite Hq. change (length (@nil string)) with 0 in *.
      rewrite H2, H3, H4, H5, H6, Hp, Hu, He, Hr1.
      repeat split; lia.
    + exfalso. rewrite Hq in Hall. apply Forall_app in Hall as [_ Hall].
      inversion Hall; congruence.
Qed.

(** X9: the while loop starts as many uploads as there are workers, or
    files if there are fewer: over truthy files, after its [parallelCount]
    iterations [min(parallelCount, N)] [putFile] calls are made and in
    flight, the other chains have ended, and nothing is recorded yet; the
    promise is then already resolved exactly when there is no file at all
    (and at least one worker). *)
Theorem start_spawns_min files :
  Forall (fun file => truthy file = true) files ->
  exists st,
    exec (init cfg files) (replicate W Spawn) = Some st /\
    loop st = 0 /\
    length (puts st) = Nat.min W (length files) /\
    st_uploading (stats st) = Z.of_nat (Nat.min W (length files)) /\
    length (targetFiles st) = length files - W /\
    ended st = W - length files /\
    success (results st) = [] /\ fail (results st) = [] /\
    (resolved st = true <-> files = [] /\ 0 < W).
Proof.
  intros Hall.
  destruct (spawn_loop W (init cfg files) eq_refl Hall)
    as (st & Hexec & Hl & Ht & Hp & Hu & He & Hr).
  pose proof (inv_resolved (reachable_inv _ _ _ Hexec)) as Hres.
  exists st. simpl in *. rewrite Hr. repeat split; try assumption; try lia.
  - apply Hres in H. destruct files; [reflexivity | simpl in *; lia].
  - apply Hres in H. lia.
  - intros [-> HW]. apply Hres. simpl in He. lia.
Qed.

(** X10: a run over no files, with at least one worker, is over when the
    while loop is: the promise is resolved, [putFile] was never called,
    and with a truthy [output] the report written has two empty lists. *)
Theorem start_no_files :
  0 < W ->
  exists st,
    exec (init cfg []) (replicate W Spawn) = Some st /\
    resolved st = true /\
    puts st = [] /\
    written st = (if truthy (output cfg)
                  then [(reportPath,
                         JObject [("success", JArray []); ("fail", JArray [])])]
                  else []).
Proof.
  intros HW.
  destruct (spawn_loop W (init cfg []) eq_refl (Forall_nil_2 _))
    as (st & Hexec & Hl & Ht & Hp & Hu & He & Hr).
  pose proof (reachable_inv _ _ _ Hexec) as HI.
  assert (Hres : resolved st = true).
  { apply (inv_resolved HI). simpl in He. lia. }
  exists st. repeat split; try assumption.
  - simpl in Hp. destruct (puts st); [reflexivity | simpl in Hp; lia].
  - rewrite (inv_written HI), Hres, Hr. reflexivity.
Qed.

(** X11: with [parallelCount] 0 the while loop does not run and nothing
    else can: the only state of the run is the initial one, whatever the
    files; the promise is never resolved, nothing is uploaded and no
    report is written. *)
Theorem start_without_workers files schedule st :
  W = 0 ->
  exec (init cfg files) schedule = Some st ->
  schedule = [] /\ st = init cfg files /\
  resolved st = false /\ puts st = [] /\ written st = [].
Proof.
  intros HW Hexec. destruct schedule as [|e schedule].
  - injection Hexec as <-. repeat split.
  - exfalso. simpl in Hexec.
    destruct e as [|w|w|w]; simpl in Hexec; rewrite ?HW in Hexec;
      try discriminate; destruct w; discriminate.
Qed.

End Run.

Lemma start_uploads_popped_truthy_witness :
  exists popped,
    demo_files = targetFiles demo_final ++ rev popped /\
    map p_file (puts demo_final) = List.filter truthy popped.
Proof.
  destruct (start_uploads_popped_truthy demo_resolve demo_remote demo_cfg
              demo_files demo_schedule demo_final)
    as (popped & H1 & H2 & _); [vm_compute; reflexivity|].
  exists popped. split; assumption.
Defined.

Lemma start_put_calls_scoped_witness :
  Forall (fun p => scope (p_token p) = "static:" +:+ p_key p) (puts demo_final).
Proof.
  pose proof (start_put_calls_scoped demo_resolve demo_remote demo_cfg
                demo_files demo_schedule demo_final) as H.
  eapply Forall_impl; [apply H; vm_compute; reflexivity|].
  intros p (_ & Hs & _). exact Hs.
Defined.

Lemma start_entries_keyed_witness :
  Forall (fun s => s_skipped s = false) (success (results demo_final)).
Proof.
  destruct (start_entries_keyed demo_resolve demo_remote demo_cfg
              demo_files demo_schedule demo_final) as [H _];
    [vm_compute; reflexivity|].
  eapply Forall_impl; [exact H|]. intros s [_ Hs]. exact Hs.
Defined.

Lemma start_counters_add_up_witness :
  st_total (stats demo_final)
  = (Z.of_nat (length (targetFiles demo_final)) + st_uploading (stats demo_final)
     + st_success (stats demo_final) + st_fail (stats demo_final))%Z.
Proof.
  apply (start_counters_add_up demo_resolve demo_remote demo_cfg
           demo_files demo_schedule demo_final).
  - repeat constructor.
  - vm_compute. reflexivity.
Defined.

Lemma start_resolves_last_witness :
  Pool.step demo_resolve demo_remote demo_cfg demo_final (Next 0) = None /\
  length (written demo_final) = 1.
Proof.
  destruct (start_resolves_last demo_resolve demo_remote demo_cfg
              demo_files demo_schedule demo_final) as [H Hw];
    [vm_compute; reflexivity|].
  split; [apply H; reflexivity | rewrite Hw; reflexivity].
Defined.

Lemma start_report_schedule_independent_witness :
  Permutation (success (results demo_final)) (success (results demo_final_other)).
Proof.
  destruct (start_report_schedule_independent demo_resolve demo_remote demo_cfg
              demo_files demo_schedule demo_schedule_other
              demo_final demo_final_other) as [H _].
  - repeat constructor.
  - vm_compute. reflexivity.
  - reflexivity.
  - vm_compute. reflexivity.
  - reflexivity.
  - exact H.
Defined.

Lemma start_spawns_min_witness :
  exists st,
    Pool.exec demo_resolve demo_remote demo_cfg (init demo_cfg demo_files)
      [Spawn; Spawn] = Some st /\
    length (puts st) = 2.
Proof.
  destruct (start_spawns_min demo_resolve demo_remote demo_cfg demo_files)
    as (st & Hexec & _ & Hp & _); [repeat constructor|].
  exists st. split; [exact Hexec | exact Hp].
Defined.

Lemma start_no_files_witness :
  exists st,
    Pool.exec demo_resolve demo_remote demo_cfg (init demo_cfg [])
      [Spawn; Spawn] = Some st /\
    resolved st = true /\ puts st = [].
Proof.
  destruct (start_no_files demo_resolve demo_remote demo_cfg)
    as (st & Hexec & Hres & Hp & _); [vm_compute; lia|].
  exists st. repeat split; assumption.
Defined.

Lemma start_without_workers_witness :
  Pool.exec demo_resolve demo_remote demo_cfg_idle (init demo_cfg_idle demo_files) []
  = Some (init demo_cfg_idle demo_files) /\
  resolved (init demo_cfg_idle demo_files) = false.
Proof.
  destruct (start_without_workers demo_resolve demo_remote demo_cfg_idle
              demo_files [] (init demo_cfg_idle demo_files))
    as (_ & _ & H & _); [reflexivity | reflexivity |].
  split; [reflexivity | exact H].
Defined.

End PoolMore.

(** ** More on batched deletion *)

Module DeleterMore.
Import JS Deleter DeleterSpec DeleterFacts.

Lemma map_deleteOp_key bucketName keys :
  map op_key (map (deleteOp bucketName) keys) = keys.
Proof. rewrite map_map. simpl. apply map_id. Qed.

Lemma del_conserves cfg this :
  forall responses files issued out,
  let r := del cfg this responses files issued out in
  map op_key (concat (batches r)) ++ remaining r
  = map op_key (concat issued) ++ files /\
  (Forall (Forall (fun op => op_bucket op = bucket cfg)) issued ->
   Forall (Forall (fun op => op_bucket op = bucket cfg)) (batches r)).
Proof.
  assert (Hops : forall keys,
            Forall (fun op => op_bucket op = bucket cfg)
                   (map (deleteOp (bucket cfg)) keys)).
  { intros keys. apply Forall_forall. intros op Hin.
    apply list_elem_of_In, in_map_iff in Hin as (key & <- & _). reflexivity. }
  assert (Hsnoc : forall issued (x : string) files,
            map op_key (concat (issued ++ [map (deleteOp (bucket cfg))
                                             (take 100 (x :: files))]))
            ++ drop 100 (x :: files)
            = map op_key (concat issued) ++ x :: files).
  { intros issued x files. rewrite concat_app.
    change (concat [map (deleteOp (bucket cfg)) (take 100 (x :: files))])
      with (map (deleteOp (bucket cfg)) (take 100 (x :: files)) ++ []).
    rewrite app_nil_r, map_app, map_deleteOp_key, <- app_assoc, take_drop.
    reflexivity. }
  induction responses as [|resp responses IH]; intros files issued out; cbv zeta.
  - destruct files as [|x files].
    + rewrite del_nil. simpl. auto.
    + rewrite del_unanswered. cbn [batches remaining]. split; [apply Hsnoc|].
      intros Hb. apply Forall_app. split; [exact Hb|]. constructor; [apply Hops|constructor].
  - destruct files as [|x files].
    + rewrite del_nil. simpl. auto.
    + rewrite del_round.
      destruct (thrown (batchCallback cfg this resp)) as [error|].
      * cbn [batches remaining]. split; [apply Hsnoc|].
        intros Hb. apply Forall_app. split; [exact Hb|].
        constructor; [apply Hops|constructor].
      * destruct (IH (drop 100 (x :: files))
                    (issued ++ [map (deleteOp (bucket cfg)) (take 100 (x :: files))])
                    (out ++ printed (batchCallback cfg this resp))) as [Hc Hb].
        cbv zeta in Hc, Hb. split.
        -- rewrite Hc. apply Hsnoc.
        -- intros Hi. apply Hb. apply Forall_app. split; [exact Hi|].
           constructor; [apply Hops|constructor].
Qed.

(** X12: [deleteFiles] consumes the array it is given: whatever the
    answers, the keys submitted so far followed by what is left in the
    array are the keys it was given, in order; so no key is submitted
    twice or out of order, and every operation names the configured
    bucket. *)
Theorem deleteFiles_consumes_its_argument cfg responses files :
  let r := deleteFiles cfg responses files in
  map op_key (concat (batches r)) ++ remaining r = files /\
  Forall (Forall (fun op => op_bucket op = bucket cfg)) (batches r).
Proof.
  cbv zeta. unfold deleteFiles.
  destruct (del_conserves cfg ThisUndefined responses files [] []) as [Hc Hb].
  split; [exact Hc | apply Hb; constructor].
Qed.

Lemma sizes_length fuel :
  forall len, len <= fuel -> length (sizes fuel 100 len) = (len + 99) / 100.
Proof.
  induction fuel as [|fuel IH]; intros len Hlen.
  - assert (len = 0) as -> by lia. reflexivity.
  - cbn [sizes]. destruct (Nat.eqb_spec len 0) as [->|Hne]; [reflexivity|].
    cbn [length]. rewrite IH by lia.
    destruct (Nat.le_gt_cases len 100) as [Hle|Hgt].
    + replace (len - 100) with 0 by lia.
      change ((0 + 99) / 100) with 0.
      apply (Nat.div_unique (len + 99) 100 1 (len - 1)); lia.
    + replace (len + 99) with ((len - 100 + 99) + 1 * 100) by lia.
      rewrite Nat.div_add by lia. lia.
Qed.

Lemma del_sequential cfg this :
  forall responses files issued out,
  length (batches (del cfg this responses files issued out))
  <= length issued + S (length responses).
Proof.
  induction responses as [|resp responses IH]; intros files issued out.
  - destruct files as [|x files].
    + rewrite del_nil. simpl. lia.
    + rewrite del_unanswered. cbn [batches]. rewrite length_app. simpl. lia.
  - destruct files as [|x files].
    + rewrite del_nil. simpl. lia.
    + rewrite del_round.
      destruct (thrown (batchCallback cfg this resp)) as [error|].
      * cbn [batches]. rewrite length_app. simpl. lia.
      * etransitivity; [apply IH|]. rewrite length_app. simpl. lia.
Qed.

(** X13: [deleteFiles] is strictly sequential and never asks for more than
    it needs: whatever the answers, it has made at most one [batch] call
    more than it has received answers, and at most one call per started
    hundred of keys, so none at all for an empty list; when every call is
    answered as the service documents it (without [err], every item with a
    code other than 200 carrying its [data]), exactly one call per started
    hundred. *)
Theorem deleteFiles_call_count cfg responses files :
  let r := deleteFiles cfg responses files in
  length (batches r) <= S (length responses) /\
  length (batches r) <= (length files + 99) / 100 /\
  (forallb wellFormed responses = true ->
   length files <= 100 * length responses ->
   length (batches r) = (length files + 99) / 100).
Proof.
  cbv zeta.
  assert (Hall : length (chunks (length files) 100
                           (map (deleteOp (bucket cfg)) files))
                 = (length files + 99) / 100).
  { rewrite <- (length_map (@length _)), chunks_sizes, length_map.
    now apply sizes_length. }
  split; [|split].
  - apply (del_sequential cfg ThisUndefined responses files [] []).
  - destruct (deleteFiles_batches_of_100 cfg responses files) as ((k & Hk) & _).
    rewrite Hk, length_take, Hall. lia.
  - intros Hans Hlen.
    destruct (del_complete cfg ThisUndefined responses files [] []) as (Hb & _);
      [now apply wellFormed_reachesDel | assumption |].
    unfold deleteFiles. rewrite Hb. exact Hall.
Qed.

Lemma deleteFiles_call_count_witness :
  length (batches (deleteFiles (DEFAULTS "/w")
                     (replicate 3 (BatchInfo 200 [])) (replicate 250 "k"))) = 3.
Proof.
  destruct (deleteFiles_call_count (DEFAULTS "/w")
              (replicate 3 (BatchInfo 200 [])) (replicate 250 "k")) as (_ & _ & H).
  rewrite H; [reflexivity | vm_compute; reflexivity | vm_compute; lia].
Defined.

(** X14: without [err], the callback of [batch] throws exactly when the
    status is between 200 and 299 (298 is a partial success) and some item
    of the body with a code other than 200 has no [data]: it then stops at
    [item.data.error], before [del()]. Otherwise it runs to [del()], having
    printed one line per item for a status between 200 and 299, and the two
    dumps for any other status. *)
Theorem batchCallback_by_status cfg this status respBody :
  let ran := batchCallback cfg this (BatchInfo status respBody) in
  let partial := (200 <=? status)%Z && (status <=? 299)%Z in
  (thrown ran = None <->
   partial = false \/ forallb carriesData respBody = true) /\
  (thrown ran = None \/ thrown ran = Some (cannotRead "error")) /\
  (partial = false -> printed ran = [Undefined; Body respBody]) /\
  (partial = true -> thrown ran = None ->
   length (printed ran) = length respBody).
Proof.
  cbv zeta.
  assert (Hq : (Z.quot status 100 =? 2)%Z = (200 <=? status)%Z && (status <=? 299)%Z).
  { destruct (Z.eqb_spec (Z.quot status 100) 2) as [E|E];
      destruct (Z.leb_spec 200 status); destruct (Z.leb_spec status 299);
      simpl; try reflexivity; exfalso;
      Z.to_euclidean_division_equations; lia. }
  simpl. rewrite Hq.
  destruct ((200 <=? status)%Z && (status <=? 299)%Z); simpl.
  - split; [|split; [|split]].
    + rewrite forEachItem_thrown. split; [auto | intros [H|H]; [discriminate | exact H]].
    + clear. induction respBody as [|item respBody IH]; [now left|].
      simpl. unfold itemLine.
      destruct (code item =? 200)%Z; simpl; [exact IH|].
      destruct (data item); simpl; [exact IH | now right].
    + discriminate.
    + intros _. apply forEachItem_printed.
  - repeat split; auto. discriminate.
Qed.

Lemma batchCallback_by_status_witness :
  thrown (batchCallback (DEFAULTS "/w") ThisUndefined
            (BatchInfo 298 [{| code := 200; data := None |};
                            {| code := 612;
                               data := Some {| item_error := Some "no such file" |} |}]))
  = None /\
  thrown (batchCallback (DEFAULTS "/w") ThisUndefined
            (BatchInfo 200 [{| code := 612; data := None |}]))
  = Some (cannotRead "error").
Proof.
  split.
  - apply (batchCallback_by_status (DEFAULTS "/w") ThisUndefined 298).
    right. reflexivity.
  - destruct (batchCallback_by_status (DEFAULTS "/w") ThisUndefined 200
                [{| code := 612; data := None |}]) as (Hiff & [Hn|Hs] & _).
    + apply Hiff in Hn. destruct Hn; discriminate.
    + exact Hs.
Defined.

End DeleterMore.

(** ** More on the paginated listing *)

Module ListerMore.
Import JS Lister ListerSpec ListerFacts Deleter DeleterSpec DeleterFacts.

(** X15: listing, then deleting: with a truthy prefix, when the pages end
    with one without marker, [deleteFiles] is called with the keys of all
    pages, and when every [batch] call is then answered as the service
    documents it (without [err], every item with a code other than 200
    carrying its [data]) the operations submitted are exactly those keys,
    in listing order, each once, in the configured bucket. *)
Theorem fetchUploadedFiles_deletes_listed cfg limitArg prefix more final rest
        batchResponses :
  truthy prefix = true ->
  forallb hasMore more = true -> hasMore final = false ->
  let keys := concat (map items (more ++ [final])) in
  let o := fetchUploadedFiles cfg {| a_limit := limitArg; a_prefix := Some prefix |}
             (map page (more ++ [final]) ++ rest) batchResponses in
  deletion o = Some (deleteFiles cfg batchResponses keys) /\
  (forallb wellFormed batchResponses = true ->
   length keys <= 100 * length batchResponses ->
   exists r, deletion o = Some r /\
             concat (batches r) = map (deleteOp (bucket cfg)) keys /\
             remaining r = [] /\ progress r = Finished).
Proof.
  intros Hp Hm Hf. cbv zeta. unfold fetchUploadedFiles.
  cbn [a_prefix a_limit truthy_opt]. rewrite Hp. cbn [negb deletion].
  rewrite run_pages by assumption. cbn [listing files].
  split; [reflexivity|]. intros Hans Hlen.
  eexists. split; [reflexivity|].
  destruct (del_complete cfg ThisUndefined batchResponses
              (concat (map items (more ++ [final]))) [] []) as (Hb & Hpr & Hr);
    [now apply wellFormed_reachesDel | assumption |].
  unfold deleteFiles. repeat split; try assumption.
  rewrite Hb. apply chunks_concat; [|lia]. now rewrite length_map.
Qed.

Lemma fetchUploadedFiles_deletes_listed_witness :
  exists r,
    deletion (fetchUploadedFiles (DEFAULTS "/w")
                {| a_limit := None; a_prefix := Some "some/0.1.1/" |}
                [page {| items := ["a"; "b"]; marker := Some "m1" |};
                 page {| items := ["c"]; marker := None |}]
                [BatchInfo 200 []]) = Some r /\
    map op_key (concat (batches r)) = ["a"; "b"; "c"].
Proof.
  destruct (fetchUploadedFiles_deletes_listed (DEFAULTS "/w") None "some/0.1.1/"
              [{| items := ["a"; "b"]; marker := Some "m1" |}]
              {| items := ["c"]; marker := None |} [] [BatchInfo 200 []])
    as [_ H]; try reflexivity.
  destruct H as (r & Hr & Hc & _); [reflexivity | vm_compute; lia |].
  exists r. split; [exact Hr|]. rewrite Hc. reflexivity.
Defined.

Lemma run_rejected cfg limit prefix resp reason responses from issued collected :
  fetch resp = FetchRejected reason ->
  run cfg limit prefix (resp :: responses) from issued collected =
  {| calls := issued ++ [listCall cfg limit prefix from];
     files := collected; listing := ListRejected reason |}.
Proof. intros H. simpl. rewrite H. reflexivity. Qed.

(** X16: a failed page ends everything: with a truthy prefix, when after
    any number of pages [listPrefix] answers with [err] or with a status
    other than 200, the listing is rejected after that call, no further
    page is asked for, and [deleteFiles] is not called at all, not even for
    the keys of the pages already listed. *)
Theorem fetchUploadedFiles_listing_failure cfg limitArg prefix more bad rest
        batchResponses :
  truthy prefix = true ->
  forallb hasMore more = true ->
  l_err bad <> None \/ (exists status, l_statusCode bad = Some status /\ status <> 200%Z) ->
  let o := fetchUploadedFiles cfg {| a_limit := limitArg; a_prefix := Some prefix |}
             (map page more ++ bad :: rest) batchResponses in
  deletion o = None /\
  exists listed reason,
    pages o = Some listed /\
    listing listed = ListRejected reason /\
    length (calls listed) = S (length more) /\
    files listed = concat (map items more).
Proof.
  intros Hp Hm Hbad. cbv zeta.
  assert (Hrej : exists reason, fetch bad = FetchRejected reason).
  { unfold fetch. destruct (l_err bad) as [err|] eqn:E; [eauto|].
    destruct Hbad as [Hbad|(status & Hs & Hne)]; [congruence|].
    rewrite Hs. apply Z.eqb_neq in Hne. rewrite Hne. eauto. }
  destruct Hrej as [reason Hrej].
  unfold fetchUploadedFiles. cbn [a_prefix a_limit truthy_opt]. rewrite Hp.
  cbn [negb deletion pages].
  rewrite run_follows_pages by assumption.
  rewrite (run_rejected _ _ _ _ reason) by assumption. cbn [listing].
  split; [reflexivity|]. do 2 eexists. split; [reflexivity|].
  cbn [listing calls files]. repeat split.
  rewrite !length_app, length_map, length_take. simpl. rewrite length_map. lia.
Qed.

Lemma fetchUploadedFiles_listing_failure_witness :
  deletion (fetchUploadedFiles (DEFAULTS "/w")
              {| a_limit := None; a_prefix := Some "p/" |}
              [page {| items := ["a"]; marker := Some "m1" |};
               {| l_err := None; l_body := {| items := []; marker := None |};
                  l_statusCode := Some 500%Z |}]
              [BatchInfo 200 []]) = None.
Proof.
  apply (fetchUploadedFiles_listing_failure (DEFAULTS "/w") None "p/"
           [{| items := ["a"]; marker := Some "m1" |}]
           {| l_err := None; l_body := {| items := []; marker := None |};
              l_statusCode := Some 500%Z |} [] [BatchInfo 200 []]).
  - reflexivity.
  - reflexivity.
  - right. exists 500%Z. split; [reflexivity | discriminate].
Defined.

Lemma run_cons cfg limit prefix resp responses from issued collected :
  run cfg limit prefix (resp :: responses) from issued collected =
  match fetch resp with
  | FetchResolved body =>
      if hasMore body
      then run cfg limit prefix responses (nextMarker body)
               (issued ++ [listCall cfg limit prefix from]) (collected ++ items body)
      else {| calls := issued ++ [listCall cfg limit prefix from];
              files := collected ++ items body; listing := ListResolved |}
  | FetchRejected reason =>
      {| calls := issued ++ [listCall cfg limit prefix from];
         files := collected; listing := ListRejected reason |}
  | FetchNeverSettles =>
      {| calls := issued ++ [listCall cfg limit prefix from];
         files := collected; listing := ListPending |}
  end.
Proof.
  simpl. destruct (fetch resp) as [body| |]; try reflexivity.
  unfold hasMore, nextMarker. destruct (marker body) as [next|]; [|reflexivity].
  simpl. destruct (truthy next); reflexivity.
Qed.

Lemma run_calls cfg limit prefix :
  forall responses from issued collected,
  let r := run cfg limit prefix responses from issued collected in
  length (calls r) <= length issued + S (length responses) /\
  (Forall (fun c => c_bucket c = bucket cfg /\ c_limit c = limit /\ c_prefix c = prefix)
          issued ->
   Forall (fun c => c_bucket c = bucket cfg /\ c_limit c = limit /\ c_prefix c = prefix)
          (calls r)) /\
  exists tail, calls r = issued ++ listCall cfg limit prefix from :: tail.
Proof.
  induction responses as [|resp responses IH]; intros from issued collected; cbv zeta.
  - change (run cfg limit prefix [] from issued collected)
      with {| calls := issued ++ [listCall cfg limit prefix from];
              files := collected; listing := ListPending |}.
    cbn [calls]. rewrite length_app. simpl. split; [lia|]. split.
    + intros H. apply Forall_app. split; [exact H|]. repeat constructor.
    + exists []. reflexivity.
  - assert (Hone : length (issued ++ [listCall cfg limit prefix from])
                   <= length issued + S (length (resp :: responses)))
      by (rewrite length_app; simpl; lia).
    assert (Hall : Forall (fun c => c_bucket c = bucket cfg /\ c_limit c = limit
                                    /\ c_prefix c = prefix) issued ->
                   Forall (fun c => c_bucket c = bucket cfg /\ c_limit c = limit
                                    /\ c_prefix c = prefix)
                          (issued ++ [listCall cfg limit prefix from])).
    { intros H. apply Forall_app. split; [exact H|]. repeat constructor. }
    rewrite run_cons. destruct (fetch resp) as [body|reason|].
    + destruct (hasMore body).
      * destruct (IH (nextMarker body) (issued ++ [listCall cfg limit prefix from])
                     (collected ++ items body)) as (Hlen & Hfa & tail & Htail).
        cbv zeta in Hlen, Hfa, Htail. rewrite length_app in Hlen. simpl in Hlen.
        split; [cbn [length]; lia|]. split; [auto|].
        exists (listCall cfg limit prefix (nextMarker body) :: tail).
        rewrite Htail, <- app_assoc. reflexivity.
      * cbn [calls]. repeat split; [exact Hone | exact Hall |].
        exists []. reflexivity.
    + cbn [calls]. repeat split; [exact Hone | exact Hall |].
      exists []. reflexivity.
    + cbn [calls]. repeat split; [exact Hone | exact Hall |].
      exists []. reflexivity.
Qed.

(** X17: with a truthy prefix, whatever [listPrefix] answers: at least one
    call is made, the first with the empty marker; the listing is strictly
    sequential, with at most one call more than answers received; and
    every call names the configured bucket, the given prefix and the given
    limit, 50 when none is given. *)
Theorem fetchUploadedFiles_list_calls cfg limitArg prefix listResponses batchResponses :
  truthy prefix = true ->
  exists listed tail,
    pages (fetchUploadedFiles cfg {| a_limit := limitArg; a_prefix := Some prefix |}
             listResponses batchResponses) = Some listed /\
    calls listed
    = listCall cfg (match limitArg with Some l => l | None => 50%Z end) prefix ""
      :: tail /\
    length (calls listed) <= S (length listResponses) /\
    Forall (fun c => c_bucket c = bucket cfg /\
                     c_limit c = match limitArg with Some l => l | None => 50%Z end /\
                     c_prefix c = prefix)
           (calls listed).
Proof.
  intros Hp. unfold fetchUploadedFiles. cbn [a_prefix a_limit truthy_opt].
  rewrite Hp. cbn [negb pages].
  destruct (run_calls cfg (match limitArg with Some l => l | None => 50%Z end)
              prefix listResponses "" [] []) as (Hlen & Hall & tail & Htail).
  cbv zeta in Hlen, Hall, Htail. simpl in Hlen.
  eexists. exists tail. split; [reflexivity|]. split; [exact Htail|].
  split; [exact Hlen|]. apply Hall. constructor.
Qed.

Lemma fetchUploadedFiles_list_calls_witness :
  exists listed tail,
    pages (fetchUploadedFiles (DEFAULTS "/w")
             {| a_limit := None; a_prefix := Some "p/" |} [] []) = Some listed /\
    calls listed = listCall (DEFAULTS "/w") 50%Z "p/" "" :: tail.
Proof.
  destruct (fetchUploadedFiles_list_calls (DEFAULTS "/w") None "p/" [] [])
    as (listed & tail & H1 & H2 & _); [reflexivity|].
  exists listed, tail. split; assumption.
Defined.

End ListerMore.

(** ** The constructor *)

Module ConstructFacts.
Import JS Construct Demo DemoMore.

Lemma merge_lookup defaults env config k :
  merge defaults env config !! k =
  match config !! k with
  | Some v => Some v
  | None =>
      match env !! k with
      | Some s => Some (VString s)
      | None => defaults !! k
      end
  end.
Proof.
  unfold merge. rewrite !lookup_union, lookup_fmap.
  destruct (config !! k); destruct (env !! k); destruct (defaults !! k); reflexivity.
Qed.

Lemma defaults_cwd process_cwd : get (DEFAULTS process_cwd) "cwd" = VString process_cwd.
Proof. reflexivity. Qed.

Lemma defaults_envFile process_cwd : get (DEFAULTS process_cwd) "envFile" = VString ".qiniu".
Proof. reflexivity. Qed.

(** X18: when the constructor returns, every property of the configuration
    comes from the object given to it if that has the property, else from
    the env file if it was read and defines it (as a string), else from
    [DEFAULTS]; the keys given to the signer are the [accessKey] and
    [secretKey] of that merge, so keys given explicitly win over those of
    the env file. *)
Theorem constructor_precedence process_cwd path_resolve dotenv config u :
  constructor process_cwd path_resolve dotenv config = Returns u ->
  exists env,
    (env = ∅ \/ exists path, dotenv path = DotenvParsed env) /\
    (forall k,
       u_config u !! k =
       match config !! k with
       | Some v => Some v
       | None =>
           match env !! k with
           | Some s => Some (VString s)
           | None => DEFAULTS process_cwd !! k
           end
       end) /\
    u_accessKey u = get (u_config u) "accessKey" /\
    u_secretKey u = get (u_config u) "secretKey".
Proof.
  unfold constructor. intros H.
  assert (Hbuild : forall env, Returns (build process_cwd env config) = Returns u ->
            (forall k, u_config u !! k =
               match config !! k with
               | Some v => Some v
               | None => match env !! k with
                         | Some s => Some (VString s)
                         | None => DEFAULTS process_cwd !! k
                         end
               end) /\
            u_accessKey u = get (u_config u) "accessKey" /\
            u_secretKey u = get (u_config u) "secretKey").
  { intros env [= <-]. split; [|split; reflexivity].
    intros k. apply merge_lookup. }
  destruct (truthy _).
  - destruct (if truthy (get config "cwd") then get config "cwd"
              else get (DEFAULTS process_cwd) "cwd") as [| | | |dir| |];
      try discriminate.
    destruct (match get config "envFile" with
              | VUndefined => get (DEFAULTS process_cwd) "envFile"
              | v => v
              end) as [| | | |name| |]; try discriminate.
    unfold loadEnv in H.
    destruct (dotenv (path_resolve dir name)) as [error|env] eqn:E; [discriminate|].
    exists env. split; [right; eauto|]. now apply Hbuild.
  - exists ∅. split; [left; reflexivity|]. now apply Hbuild.
Qed.

Lemma constructor_precedence_witness :
  u_config demo_uploader !! "accessKey" = Some (VString "ak-explicit") /\
  u_accessKey demo_uploader = get (u_config demo_uploader) "accessKey".
Proof.
  destruct (constructor_precedence "/w" demo_resolve demo_dotenv demo_object
              demo_uploader) as (env & _ & Hk & Ha & _).
  - vm_compute. reflexivity.
  - split; [|exact Ha]. rewrite (Hk "accessKey"). reflexivity.
Defined.

(** X19: where the env file is looked for, and when. With [envFile] set to
    a falsy value other than [undefined] nothing is read: the result is
    the merge of [DEFAULTS] and the given object whatever the env file
    holds. With [envFile] left out, the file [.qiniu] is read under [cwd]
    when that is given as a non-empty string, under [process.cwd()] when it
    is left out; an error of [dotenv] then aborts the construction with
    that error. *)
Theorem constructor_env_file process_cwd path_resolve dotenv config :
  (forall v, config !! "envFile" = Some v -> v <> VUndefined -> truthy v = false ->
     constructor process_cwd path_resolve dotenv config
     = Returns (build process_cwd ∅ config)) /\
  (config !! "envFile" = None ->
   forall dir,
     (config !! "cwd" = None /\ dir = process_cwd) \/
     (config !! "cwd" = Some (VString dir) /\ JS.truthy dir = true) ->
     constructor process_cwd path_resolve dotenv config =
     match dotenv (path_resolve dir ".qiniu") with
     | DotenvError error => Throws error
     | DotenvParsed env => Returns (build process_cwd env config)
     end).
Proof.
  split.
  - intros v Hv Hne Hfalsy.
    assert (Hget : get config "envFile" = v) by (unfold get; now rewrite Hv).
    unfold constructor. rewrite Hget.
    destruct v; try congruence; rewrite Hfalsy; reflexivity.
  - intros Hnone dir Hdir.
    assert (Hget : get config "envFile" = VUndefined) by (unfold get; now rewrite Hnone).
    unfold constructor. rewrite Hget, defaults_envFile, defaults_cwd.
    change (truthy (VString ".qiniu")) with true. cbv iota.
    destruct Hdir as [[Hc ->]|[Hc Ht]].
    + assert (Hcwd : get config "cwd" = VUndefined) by (unfold get; now rewrite Hc).
      rewrite Hcwd. cbn [truthy]. unfold loadEnv. destruct (dotenv _); reflexivity.
    + assert (Hcwd : get config "cwd" = VString dir) by (unfold get; now rewrite Hc).
      rewrite Hcwd. cbn [truthy]. rewrite Ht.
      unfold loadEnv. destruct (dotenv _); reflexivity.
Qed.

Lemma constructor_env_file_witness :
  constructor "/w" (fun dir name => dir +:+ "/" +:+ name)
    (fun _ => DotenvError "ENOENT") {[ "envFile" := VBool false ]}
  = Returns (build "/w" ∅ {[ "envFile" := VBool false ]}) /\
  constructor "/w" (fun dir name => dir +:+ "/" +:+ name)
    (fun _ => DotenvError "ENOENT") ∅
  = Throws "ENOENT".
Proof.
  destruct (constructor_env_file "/w" (fun dir name => dir +:+ "/" +:+ name)
              (fun _ => DotenvError "ENOENT") {[ "envFile" := VBool false ]})
    as [H1 _].
  destruct (constructor_env_file "/w" (fun dir name => dir +:+ "/" +:+ name)
              (fun _ => DotenvError "ENOENT") ∅) as [_ H2].
  split.
  - apply (H1 (VBool false)); [reflexivity | discriminate | reflexivity].
  - apply (H2 eq_refl "/w"). left. split; reflexivity.
Defined.

End ConstructFacts.
